(** * Traffic-signal phase simulator of the ola-maps front-end

    A shallow embedding of the [TrafficSignalOverlay] component
    (src/components/TrafficSignals/TrafficSignalOverlay.tsx, shipped in the
    second half of NavigationPanel.tsx) and the properties of its phase
    clock, signal factory and timer effect; then of the pure helpers of
    [NavigationPanel] (polyline decoding, step instructions, traffic
    advisories) and of the recent-searches list of [SearchBar].

    Conventions of the embedding.
    - JavaScript numbers that hold coordinates are binary64 floats, Rocq's
      primitive [float]; the literal [0.001] is the same double in both.
    - JavaScript numbers that count seconds, cycles and array indices are
      integers in every state the component builds; they are [Z] (or [nat]
      for an array index), and [%] on them is [Z.rem].
    - [console.log] calls have no effect on the state and are left out.
    - A React state cell is a component of an explicit state record; the
      updater passed to [setTrafficSignals] is a function on the old value. *)

From Stdlib Require Import ZArith Lia Bool Floats Uint63 Ascii DecimalString DecimalNat.
From stdpp Require Import base option list strings gmap.

Set Warnings "-inexact-float".
Local Open Scope Z_scope.

(* ---------------------------------------------------------------------- *)
(** ** JavaScript values used by the component *)

Module Js.

(** A number that holds an integer, as a double. *)
Definition of_Z (z : Z) : float := PrimFloat.of_uint63 (Uint63.of_Z z).

(** [Math.floor] of a double, read off its sign, mantissa and exponent.
    The component calls it on positive finite values only; a zero gives 0,
    and the infinities and NaN, which [Math.floor] returns unchanged, have
    no integer and are given 0. *)
Definition floor (x : float) : Z :=
  match Prim2SF x with
  | S754_finite s m e =>
      let n := if s then Z.neg m else Z.pos m in
      if 0 <=? e then n * 2 ^ e else n / 2 ^ (- e)
  | _ => 0
  end.

(** Truthiness of a number: everything but [0], [-0] and [NaN]. *)
Definition truthy (x : float) : bool :=
  negb (PrimFloat.is_zero x || PrimFloat.is_nan x).

(** Truthiness of a string: everything but the empty string. *)
Definition truthy_str (s : string) : bool :=
  match s with EmptyString => false | _ => true end.

(** A property that may be absent: [None] is [undefined]. *)
Definition truthy_opt {A} (t : A -> bool) (x : option A) : bool :=
  match x with Some a => t a | None => false end.

(** [a || b] on possibly-undefined values: [a] when it is truthy,
    [b] otherwise. *)
Definition or {A} (t : A -> bool) (a b : option A) : option A :=
  if truthy_opt t a then a else b.

(** [n || 0] on an integer-valued number. *)
Definition or_zero (n : Z) : Z := if n =? 0 then 0 else n.

(** Template-literal rendering of a non-negative integer. *)
Definition show (n : nat) : string :=
  NilEmpty.string_of_uint (Nat.to_uint n).

End Js.

(* ---------------------------------------------------------------------- *)
(** ** Data model *)

(** ['red' | 'yellow' | 'green' | 'walk'] *)
Inductive SignalState : Set := red | yellow | green | walk.

#[global] Instance SignalState_eq_dec : EqDecision SignalState.
Proof. solve_decision. Defined.

(** [interface TrafficSignal] *)
Record TrafficSignal : Set := mkTrafficSignal {
  id : string;
  lat : float;
  lng : float;
  name : string;
  currentState : SignalState;
  countdown : Z;
  pedestrianWalk : bool;
  cycleCount : Z;
  completedCycles : Z
}.

(* ---------------------------------------------------------------------- *)
(** ** Initial phase and countdown *)

(** [getInitialState]: [states[signalIndex % 3]] with
    [states = ['red', 'green', 'yellow']]. *)
Definition getInitialState (signalIndex : nat) : SignalState :=
  match (signalIndex mod 3)%nat with
  | O => red
  | 1%nat => green
  | _ => yellow
  end.

(** The [baseCountdowns] table. *)
Definition baseCountdowns (state : SignalState) : Z :=
  match state with
  | red => 45
  | green => 30
  | yellow => 6
  | walk => 20
  end.

(** [minTime = Math.max(5, Math.floor(maxTime * 0.2))], the product taken
    in binary64 as the source does. *)
Definition minTimeOf (maxTime : Z) : Z :=
  Z.max 5 (Js.floor (Js.of_Z maxTime * 0.2)%float).

(** [getInitialCountdown] *)
Definition getInitialCountdown (state : SignalState) (signalIndex : nat) : Z :=
  let maxTime := baseCountdowns state in
  let minTime := minTimeOf maxTime in
  let seed := Z.rem (Z.of_nat signalIndex * 7 + 13) (maxTime - minTime + 1) in
  minTime + seed.

(* ---------------------------------------------------------------------- *)
(** ** The phase clock *)

(** The callback that [updateSignalStates] maps over the signal set.  The
    four mutable locals of the source are the components of the tuple
    computed first; the returned object is the spread of [signal] with the
    five state fields overwritten. *)
Definition updateSignal (signal : TrafficSignal) : TrafficSignal :=
  let newCountdown := countdown signal - 1 in
  let newCycleCount := cycleCount signal in
  let newCompletedCycles := Js.or_zero (completedCycles signal) in
  let '(newState, newCountdown, newPedestrianWalk, newCompletedCycles) :=
    if newCountdown <=? 0 then
      match currentState signal with
      | red => (green, 30, false, newCompletedCycles)
      | green => (yellow, 6, false, newCompletedCycles)
      | yellow =>
          let newCompletedCycles := newCompletedCycles + 1 in
          if 2 <=? newCompletedCycles
          then (walk, 20, true, 0)
          else (red, 45, false, newCompletedCycles)
      | walk => (red, 45, false, newCompletedCycles)
      end
    else
      (currentState signal, newCountdown,
       bool_decide (currentState signal = walk), newCompletedCycles)
  in
  {| id := id signal;
     lat := lat signal;
     lng := lng signal;
     name := name signal;
     currentState := newState;
     countdown := newCountdown;
     pedestrianWalk := newPedestrianWalk;
     cycleCount := newCycleCount;
     completedCycles := newCompletedCycles |}.

(** The updater [prev => prev.map(...)] of [updateSignalStates]. *)
Definition updateSignalStates (prev : list TrafficSignal) : list TrafficSignal :=
  updateSignal <$> prev.

(** [n] ticks of one signal. *)
Definition ticks (n : nat) (signal : TrafficSignal) : TrafficSignal :=
  Nat.iter n updateSignal signal.

(* ---------------------------------------------------------------------- *)
(** ** The signal factory *)

(** The object pushed by iteration [i] of the loop of [createDemoSignals]. *)
Definition demoSignal (location_lat location_lng : float) (i : nat) : TrafficSignal :=
  let initialState := getInitialState i in
  {| id := "demo_signal_" +:+ Js.show (i + 1);
     lat := (location_lat
             + (if Nat.even i then 0.001 else -0.001) * Js.of_Z (Z.of_nat (i + 1)))%float;
     lng := (location_lng
             + (if (i <? 2)%nat then 0.001 else -0.001) * Js.of_Z (Z.of_nat (i + 1)))%float;
     name := "Traffic Signal " +:+ Js.show (i + 1);
     currentState := initialState;
     countdown := getInitialCountdown initialState i;
     pedestrianWalk := false;
     cycleCount := 0;
     completedCycles := 0 |}.

(** [createDemoSignals]: the array built by [for (let i = 0; i < 4; i++)]. *)
Definition createDemoSignals (location_lat location_lng : float) : list TrafficSignal :=
  demoSignal location_lat location_lng <$> seq 0 4.

(** A raw candidate of the discovery sources ([any] in the source): the
    properties [enhanceAllSignals] reads, each possibly absent. *)
Record Geometry : Set := { coordinates : option (list float) }.
Record LatLng : Set := { latlng_lat : option float; latlng_lng : option float }.
Record Properties : Set := { properties_name : option string }.
Record RawCandidate : Set := {
  raw_id : option string;
  raw_lat : option float;
  raw_lng : option float;
  raw_name : option string;
  raw_geometry : option Geometry;
  raw_latlng : option LatLng;
  raw_properties : option Properties
}.

(** [signal.geometry?.coordinates?.[k]] *)
Definition geometry_coordinate (signal : RawCandidate) (k : nat) : option float :=
  g ← raw_geometry signal; c ← coordinates g; c !! k.

(** [signal.lat || signal.geometry?.coordinates?.[1] || signal.latlng?.lat] *)
Definition resolved_lat (signal : RawCandidate) : option float :=
  Js.or Js.truthy
    (Js.or Js.truthy (raw_lat signal) (geometry_coordinate signal 1))
    (raw_latlng signal ≫= latlng_lat).

(** [signal.lng || signal.geometry?.coordinates?.[0] || signal.latlng?.lng] *)
Definition resolved_lng (signal : RawCandidate) : option float :=
  Js.or Js.truthy
    (Js.or Js.truthy (raw_lng signal) (geometry_coordinate signal 0))
    (raw_latlng signal ≫= latlng_lng).

(** The callback of [signalData.map] followed by the test of [.filter]:
    the mapped object holds [resolved_lat] and [resolved_lng], and the
    filter keeps it when both are truthy, that is, when both are numbers
    other than [0] and [NaN].  [None] is a candidate the filter drops. *)
Definition enhanceSignal (index : nat) (signal : RawCandidate) : option TrafficSignal :=
  let initialState := getInitialState index in
  match resolved_lat signal, resolved_lng signal with
  | Some la, Some ln =>
      if Js.truthy la && Js.truthy ln then
        Some {| id := default ("global_signal_" +:+ Js.show index)
                        (Js.or Js.truthy_str (raw_id signal) None);
                lat := la;
                lng := ln;
                name := default ("Traffic Signal " +:+ Js.show (index + 1))
                          (Js.or Js.truthy_str
                             (Js.or Js.truthy_str (raw_name signal)
                                (raw_properties signal ≫= properties_name))
                             None);
                currentState := initialState;
                countdown := getInitialCountdown initialState index;
                pedestrianWalk := false;
                cycleCount := 0;
                completedCycles := 0 |}
      else None
  | _, _ => None
  end.

(** The array [enhancedSignals] of [enhanceAllSignals]: [index] is the
    position in the raw list, and survivors keep their relative order. *)
Definition enhancedSignals (signalData : list RawCandidate) : list TrafficSignal :=
  omap (fun x => x) (imap enhanceSignal signalData).

(* ---------------------------------------------------------------------- *)
(** ** The overlay component: state cell, interval ref and timer effect *)

(** The component instance together with the host's table of live
    intervals.  Interval handles are the positive integers a browser hands
    out, so a stored handle is always truthy. *)
Record Overlay : Type := mkOverlay {
  trafficSignals : list TrafficSignal;  (* useState<TrafficSignal[]>([]) *)
  intervalRef : option positive;        (* useRef<Timeout>().current *)
  timers : gset positive;               (* intervals set and not cleared *)
  nextTimer : positive;                 (* the handle setInterval returns next *)
  timerDeps : option bool;              (* deps of the timer effect when it last ran *)
  timerCleanup : bool                   (* did that run return a cleanup? *)
}.

(** The instance before its first commit. *)
Definition mounted : Overlay :=
  {| trafficSignals := []; intervalRef := None; timers := ∅;
     nextTimer := 1%positive; timerDeps := None; timerCleanup := false |}.

(** [if (intervalRef.current) clearInterval(intervalRef.current)] *)
Definition clearCurrentInterval (o : Overlay) : Overlay :=
  match intervalRef o with
  | Some h =>
      {| trafficSignals := trafficSignals o; intervalRef := intervalRef o;
         timers := timers o ∖ {[h]}; nextTimer := nextTimer o;
         timerDeps := timerDeps o; timerCleanup := timerCleanup o |}
  | None => o
  end.

(** Body of the timer effect. *)
Definition timerEffect (o : Overlay) : Overlay :=
  if (length (trafficSignals o) =? 0)%nat then
    {| trafficSignals := trafficSignals o; intervalRef := intervalRef o;
       timers := timers o; nextTimer := nextTimer o;
       timerDeps := timerDeps o; timerCleanup := false |}
  else
    let o := clearCurrentInterval o in
    let h := nextTimer o in
    {| trafficSignals := trafficSignals o; intervalRef := Some h;
       timers := {[h]} ∪ timers o; nextTimer := Pos.succ h;
       timerDeps := timerDeps o; timerCleanup := true |}.

(** The dependency array of the timer effect: [[trafficSignals.length > 0]]. *)
Definition timerDepsOf (o : Overlay) : bool :=
  bool_decide (0 < length (trafficSignals o))%nat.

(** What React does with the timer effect after a render is committed:
    nothing when the dependency is the one of the last run; otherwise the
    cleanup of the last run (if it returned one), then the body. *)
Definition commit (o : Overlay) : Overlay :=
  let d := timerDepsOf o in
  if decide (timerDeps o = Some d) then o
  else
    let o := if timerCleanup o then clearCurrentInterval o else o in
    timerEffect
      {| trafficSignals := trafficSignals o; intervalRef := intervalRef o;
         timers := timers o; nextTimer := nextTimer o;
         timerDeps := Some d; timerCleanup := timerCleanup o |}.

(** [setTrafficSignals(updater)], then the render it causes. *)
Definition setTrafficSignals
    (updater : list TrafficSignal -> list TrafficSignal) (o : Overlay) : Overlay :=
  commit
    {| trafficSignals := updater (trafficSignals o); intervalRef := intervalRef o;
       timers := timers o; nextTimer := nextTimer o;
       timerDeps := timerDeps o; timerCleanup := timerCleanup o |}.

(** Replacing the signal set: [setTrafficSignals(signals)]. *)
Definition replaceSignals (signals : list TrafficSignal) (o : Overlay) : Overlay :=
  setTrafficSignals (fun _ => signals) o.

(** The interval with handle [h] comes due: its callback runs
    [updateSignalStates] when the interval is still live. *)
Definition fire (h : positive) (o : Overlay) : Overlay :=
  if decide (h ∈ timers o) then setTrafficSignals updateSignalStates o else o.

(** The state part of [enhanceAllSignals]: install the adapted set when it
    is not empty (otherwise only a retry is scheduled). *)
Definition enhanceAllSignals (signalData : list RawCandidate) (o : Overlay) : Overlay :=
  let enhanced := enhancedSignals signalData in
  if (0 <? length enhanced)%nat then replaceSignals enhanced o else o.

(** The overlay after its first commit and the demo seeding of
    [fetchTrafficSignals]. *)
Definition started (location_lat location_lng : float) : Overlay :=
  replaceSignals (createDemoSignals location_lat location_lng) (commit mounted).

(* ---------------------------------------------------------------------- *)
(** ** Reachable signal states and observations on traces *)

(** The states a signal of the overlay can be in: built by one of the two
    factories, then ticked any number of times. *)
Inductive reachable : TrafficSignal -> Prop :=
| reachable_demo location_lat location_lng s :
    s ∈ createDemoSignals location_lat location_lng -> reachable s
| reachable_enhanced signalData s :
    s ∈ enhancedSignals signalData -> reachable s
| reachable_tick s :
    reachable s -> reachable (updateSignal s).

(** The part of a signal the phase clock reads and writes. *)
Definition core (s : TrafficSignal) : SignalState * Z * Z :=
  (currentState s, countdown s, completedCycles s).

(** The tick of [s] fires a transition. *)
Definition expires (s : TrafficSignal) : bool := countdown s - 1 <=? 0.

(** The tick of [s] is a Yellow exit. *)
Definition yellowExit (s : TrafficSignal) : bool :=
  bool_decide (currentState s = yellow) && expires s.

(** The tick of [s] enters Walk from another phase. *)
Definition entersWalk (s : TrafficSignal) : bool :=
  bool_decide (currentState s ≠ walk)
  && bool_decide (currentState (updateSignal s) = walk).

(** The tick of [s] leaves Walk. *)
Definition leavesWalk (s : TrafficSignal) : bool :=
  bool_decide (currentState s = walk)
  && bool_decide (currentState (updateSignal s) ≠ walk).

(** How many of the first [n] ticks from [s] satisfy [p] (a predicate on
    the state the tick is applied to). *)
Fixpoint countTicks (p : TrafficSignal -> bool) (n : nat) (s : TrafficSignal) : nat :=
  match n with
  | O => O
  | S m => (countTicks p m s + (if p (ticks m s) then 1 else 0))%nat
  end.

(** Yellow exits among the first [n] ticks. *)
Definition yellowExits : nat -> TrafficSignal -> nat := countTicks yellowExit.

(** Walk phases begun, and Walk phases passed through (entered and left
    again), within the first [n] ticks. *)
Definition walkPhasesEntered : nat -> TrafficSignal -> nat := countTicks entersWalk.
Definition walkPhasesPassed : nat -> TrafficSignal -> nat := countTicks leavesWalk.

(** A signal with a given clock state; the other fields play no role. *)
Definition signalAt (state : SignalState) (c k : Z) : TrafficSignal :=
  {| id := "signal"; lat := 28.7041; lng := 77.1025; name := "Traffic Signal";
     currentState := state; countdown := c;
     pedestrianWalk := bool_decide (state = walk);
     cycleCount := 0; completedCycles := k |}.

(** A signal with another [cycleCount]. *)
Definition withCycleCount (n : Z) (s : TrafficSignal) : TrafficSignal :=
  {| id := id s; lat := lat s; lng := lng s; name := name s;
     currentState := currentState s; countdown := countdown s;
     pedestrianWalk := pedestrianWalk s;
     cycleCount := n; completedCycles := completedCycles s |}.

(* ---------------------------------------------------------------------- *)
(** ** Signals as the factories seed them *)

(** A signal as a factory makes it, at index [i] of its batch. *)
Record seeded (i : nat) (s : TrafficSignal) : Prop := {
  seeded_state : currentState s = getInitialState i;
  seeded_countdown : countdown s = getInitialCountdown (getInitialState i) i;
  seeded_walk : pedestrianWalk s = false;
  seeded_cycleCount : cycleCount s = 0;
  seeded_completed : completedCycles s = 0
}.

(** An observation that reads the clock part of a signal only. *)
Definition clockOnly (p : TrafficSignal -> bool) : Prop :=
  forall a b, core a = core b -> p a = p b.

(* ---------------------------------------------------------------------- *)
(** ** Walk phases along a trace, and the cycle law as specified *)

(** The tick of [s] spends a second of a Walk phase. *)
Definition inWalk (s : TrafficSignal) : bool := bool_decide (currentState s = walk).

(** Seconds of Walk spent within the first [n] ticks. *)
Definition walkTicks : nat -> TrafficSignal -> nat := countTicks inWalk.

(** The cycle law in the words of the specification: 81 ticks after
    Red/45/0 the signal is Red with one completed cycle, and 162 ticks
    after it the signal has passed through exactly one Walk phase, of
    duration 20. *)
Definition cycle_law_as_stated (s : TrafficSignal) : Prop :=
  currentState (ticks 81 s) = red
  /\ completedCycles (ticks 81 s) = 1
  /\ walkPhasesPassed 162 s = 1%nat
  /\ walkTicks 162 s = 20%nat.

(* ---------------------------------------------------------------------- *)
(** ** Candidates with a resolvable coordinate *)

(** A number that can be a coordinate: any double but [NaN]. *)
Definition isNumber (x : float) : bool := negb (PrimFloat.is_nan x).

(** The places a candidate's latitude, and longitude, may be stored, in
    the order the adapter consults them. *)
Definition lat_sources (c : RawCandidate) : list (option float) :=
  [raw_lat c; geometry_coordinate c 1; raw_latlng c ≫= latlng_lat].
Definition lng_sources (c : RawCandidate) : list (option float) :=
  [raw_lng c; geometry_coordinate c 0; raw_latlng c ≫= latlng_lng].

(** In the words of the specification, a candidate has a resolvable
    coordinate when a latitude and a longitude can be read from its
    explicit fields, its geometry or its [latlng]. *)
Definition resolvable (c : RawCandidate) : bool :=
  existsb (Js.truthy_opt isNumber) (lat_sources c)
  && existsb (Js.truthy_opt isNumber) (lng_sources c).

(** No stored coordinate is the number zero. *)
Definition zeroFree (c : RawCandidate) : bool :=
  forallb (fun x => negb (Js.truthy_opt PrimFloat.is_zero x))
          (lat_sources c ++ lng_sources c).

(** A point of interest on the equator, and one in Delhi. *)
Definition onEquator : RawCandidate :=
  {| raw_id := Some "poi_17"; raw_lat := Some 0%float; raw_lng := Some 77.1025%float;
     raw_name := Some "Equator Rd"; raw_geometry := None; raw_latlng := None;
     raw_properties := None |}.
Definition inDelhi : RawCandidate :=
  {| raw_id := None; raw_lat := None; raw_lng := None; raw_name := None;
     raw_geometry := Some {| coordinates := Some [77.1025%float; 28.7041%float] |};
     raw_latlng := None;
     raw_properties := Some {| properties_name := Some "Ring Rd" |} |}.

(* ---------------------------------------------------------------------- *)
(** ** States of the scheduler, and the restart rule as specified *)

(** The scheduler is running on interval [h]: a non-empty set is
    installed, the timer effect last ran for a non-empty set and its
    interval [h] is the only live one. *)
Record running (h : positive) (o : Overlay) : Prop := {
  running_signals : trafficSignals o ≠ [];
  running_ref : intervalRef o = Some h;
  running_timers : timers o = {[h]};
  running_next : (h < nextTimer o)%positive;
  running_deps : timerDeps o = Some true;
  running_cleanup : timerCleanup o = true
}.

(** The scheduler is idle after the set became empty: nothing is live,
    the ref still holds the handle [h] that was cleared. *)
Record idle (h : positive) (o : Overlay) : Prop := {
  idle_signals : trafficSignals o = [];
  idle_ref : intervalRef o = Some h;
  idle_timers : timers o = ∅;
  idle_next : (h < nextTimer o)%positive;
  idle_deps : timerDeps o = Some false;
  idle_cleanup : timerCleanup o = false
}.

(** The restart rule in the words of the specification: replacing the
    set stops the running interval and starts a new one for the new set. *)
Definition restart_rule_as_stated (o : Overlay) (signals : list TrafficSignal) : Prop :=
  let o' := replaceSignals signals o in
  (forall h, h ∈ timers o -> h ∉ timers o')
  /\ (exists h', (h' ∉ timers o) /\ timers o' = {[h']})
  /\ trafficSignals o' = signals.

(** [o] with another signal set and nothing else changed. *)
Definition withSignals (signals : list TrafficSignal) (o : Overlay) : Overlay :=
  {| trafficSignals := signals; intervalRef := intervalRef o;
     timers := timers o; nextTimer := nextTimer o;
     timerDeps := timerDeps o; timerCleanup := timerCleanup o |}.

(* ---------------------------------------------------------------------- *)
(** ** The cycle of clock states *)

(** The tick of [s] spends a second of phase [p]. *)
Definition inPhase (p : SignalState) (s : TrafficSignal) : bool :=
  bool_decide (currentState s = p).

(** Seconds of phase [p] spent within the first [n] ticks. *)
Definition phaseTicks (p : SignalState) : nat -> TrafficSignal -> nat :=
  countTicks (inPhase p).

(** The clock states of the running simulation: a countdown between 1 and
    the duration of the phase, at most one completed cycle, and none
    during Walk. *)
Definition onCycle (s : TrafficSignal) : Prop :=
  1 <= countdown s <= baseCountdowns (currentState s)
  /\ (completedCycles s = 0 \/ completedCycles s = 1)
  /\ (currentState s = walk -> completedCycles s = 0).

(** The same states, listed. *)
Definition cycleCores : list (SignalState * Z * Z) :=
  p ← [red; green; yellow; walk];
  k ← (if bool_decide (p = walk) then [0] else [0; 1]);
  c ← seq 1 (Z.to_nat (baseCountdowns p));
  [(p, Z.of_nat c, k)].

(** A signal with a given clock part. *)
Definition ofCore (x : SignalState * Z * Z) : TrafficSignal :=
  signalAt x.1.1 x.1.2 x.2.

(** A Red phase that has just begun, and the clock parts of the 182 ticks
    that follow it. *)
Definition cycleStart : TrafficSignal := signalAt red 45 0.

Definition cycleTrace : list (SignalState * Z * Z) :=
  (fun n => core (ticks n cycleStart)) <$> seq 0 182.

(* ---------------------------------------------------------------------- *)
(** ** The location effect, and the events of the overlay *)

(** State updates queued while React runs the effects of one commit are
    applied in their order, and one render follows; without an update
    there is none. *)
Definition batched
    (updates : list (list TrafficSignal -> list TrafficSignal)) (o : Overlay) : Overlay :=
  match updates with
  | [] => o
  | _ => setTrafficSignals
           (fun prev => foldl (fun signals update => update signals) prev updates) o
  end.

(** The update [clearSignalsFromMap] queues, [setTrafficSignals([])]
    (the markers it removes are no part of the timer's state). *)
Definition clearSignalsFromMap : list TrafficSignal -> list TrafficSignal :=
  fun _ => [].

(** The update [fetchTrafficSignals] queues before it returns: the
    [setTrafficSignals(demoSignals)] of [createDemoSignals(currentLocation)].
    Its detection round comes later, from a timeout. *)
Definition fetchTrafficSignals
    (currentLocation : float * float) : list TrafficSignal -> list TrafficSignal :=
  fun _ => createDemoSignals currentLocation.1 currentLocation.2.

(** The effect on [[map, currentLocation]], which React runs after a
    render in which one of the two has changed: first the cleanup of its
    last run, when that run came to return one, then the body, which
    returns early without a map or a location.  [clearSignalsFromMap] is
    called nowhere but in that cleanup. *)
Definition locationEffect
    (cleanup map : bool) (currentLocation : option (float * float)) (o : Overlay) : Overlay :=
  batched
    ((if cleanup then [clearSignalsFromMap] else [])
     ++ match map, currentLocation with
        | true, Some location => [fetchTrafficSignals location]
        | _, _ => []
        end)
    o.

(** What can happen to a mounted overlay: a signal set is installed by
    an update of its own, the location effect runs again, a detection
    round hands candidates to [enhanceAllSignals], an interval comes due. *)
Inductive OverlayEvent : Type :=
| Install (signals : list TrafficSignal)
| Relocated (cleanup map : bool) (currentLocation : option (float * float))
| Detected (signalData : list RawCandidate)
| Due (h : positive).

Definition handle (o : Overlay) (e : OverlayEvent) : Overlay :=
  match e with
  | Install signals => replaceSignals signals o
  | Relocated cleanup map currentLocation => locationEffect cleanup map currentLocation o
  | Detected signalData => enhanceAllSignals signalData o
  | Due h => fire h o
  end.

(** The overlay after its first commit and a sequence of events. *)
Definition run (events : list OverlayEvent) : Overlay :=
  foldl handle (commit mounted) events.

(** The scheduler is quiet: no signals, no live interval, and the timer
    effect last ran for an empty set. *)
Record quiet (o : Overlay) : Prop := {
  quiet_signals : trafficSignals o = [];
  quiet_timers : timers o = ∅;
  quiet_next : forall h, intervalRef o = Some h -> (h < nextTimer o)%positive;
  quiet_deps : timerDeps o = Some false;
  quiet_cleanup : timerCleanup o = false
}.

(** The scheduler is running or quiet. *)
Definition settled (o : Overlay) : Prop := (exists h, running h o) \/ quiet o.

(* ---------------------------------------------------------------------- *)
(** ** Positions the adapter keeps *)

(** The position the adapter gives a candidate, when it keeps it: the
    [lat] and [lng] of the mapped object that pass the filter. *)
Definition keptPosition (c : RawCandidate) : option (float * float) :=
  match resolved_lat c, resolved_lng c with
  | Some la, Some ln => if Js.truthy la && Js.truthy ln then Some (la, ln) else None
  | _, _ => None
  end.

(** A candidate without a usable [id]: the property is absent or the
    empty string. *)
Definition anonymous (c : RawCandidate) : Prop :=
  Js.or Js.truthy_str (raw_id c) None = None.

(* ---------------------------------------------------------------------- *)
(** ** Polyline decoding (NavigationPanel) *)

Module Polyline.

(** [ToInt32]: the value the 32-bit operators [<<] and [|] produce. *)
Definition wrap32 (z : Z) : Z := (z + 2 ^ 31) mod 2 ^ 32 - 2 ^ 31.

(** [x << shift] on 32-bit integers: the count is taken modulo 32. *)
Definition shl32 (x shift : Z) : Z := wrap32 (Z.shiftl x (shift mod 32)).

(** The code units of a string, as [charCodeAt] returns them (for the
    one-byte characters of a Rocq string; encoded polylines are ASCII). *)
Fixpoint codeUnits (encoded : string) : list Z :=
  match encoded with
  | EmptyString => []
  | String a rest => Z.of_N (Ascii.N_of_ascii a) :: codeUnits rest
  end.

(** One [do ... while (b >= 0x20)] loop, started with the given [shift]
    and [result] on the code units from [index] on.  It returns [result]
    and the code units left.  Past the end of the string [charCodeAt]
    gives [NaN]: [NaN & 0x1f] is 0, [result] stays, and [NaN >= 0x20] is
    false, so the loop ends there. *)
Fixpoint readValue (codes : list Z) (shift result : Z) : Z * list Z :=
  match codes with
  | [] => (result, [])
  | c :: rest =>
      let b := c - 63 in
      let result := Z.lor result (shl32 (Z.land b 31) shift) in
      let shift := shift + 5 in
      if 32 <=? b then readValue rest shift result else (result, rest)
  end.

(** [(result & 1) !== 0 ? ~(result >> 1) : result >> 1] *)
Definition delta (result : Z) : Z :=
  if negb (Z.land result 1 =? 0) then Z.lnot (Z.shiftr result 1)
  else Z.shiftr result 1.

(** The [while (index < encoded.length)] loop, from the running [lat] and
    [lng] (integers, in units of 1e-5 degrees) on the code units left; it
    lists the [(lng, lat)] pushed.  Every iteration consumes a code unit,
    so [fuel] iterations are enough for [fuel] code units. *)
Fixpoint decodeLoop (fuel : nat) (lat lng : Z) (codes : list Z) : list (Z * Z) :=
  match fuel, codes with
  | O, _ => []
  | _, [] => []
  | S fuel, _ :: _ =>
      let '(result, codes) := readValue codes 0 0 in
      let lat := lat + delta result in
      let '(result, codes) := readValue codes 0 0 in
      let lng := lng + delta result in
      (lng, lat) :: decodeLoop fuel lat lng codes
  end.

Definition decodeFrom (lat lng : Z) (codes : list Z) : list (Z * Z) :=
  decodeLoop (length codes) lat lng codes.

(** A number that holds an integer, of either sign, as a double. *)
Definition of_int (z : Z) : float :=
  if z <? 0 then (- Js.of_Z (- z))%float else Js.of_Z z.

(** [decodePolyline]: the coordinates [[lng / 1e5, lat / 1e5]]. *)
Definition decodePolyline (encoded : string) : list (float * float) :=
  (fun p => (of_int p.1 / 1e5, of_int p.2 / 1e5)%float)
    <$> decodeFrom 0 0 (codeUnits encoded).

(** The five bits a code unit contributes, and whether the value goes on
    after it. *)
Definition digit (c : Z) : Z := Z.land (c - 63) 31.
Definition continues (c : Z) : bool := 32 <=? c - 63.

(** Digits in base 32, least significant first. *)
Definition fromDigits (ds : list Z) : Z := foldr (fun d acc => d + 32 * acc) 0 ds.

(** The code units of one complete value: continued up to the last. *)
Definition complete (v : list Z) : Prop :=
  exists cs c, v = cs ++ [c] /\ Forall (fun c => continues c = true) cs
               /\ continues c = false.

(** Code units that hold whole points: pairs of complete values. *)
Inductive wholePoints : list Z -> Prop :=
| wholePoints_nil : wholePoints []
| wholePoints_cons v1 v2 p :
    complete v1 -> complete v2 -> wholePoints p -> wholePoints (v1 ++ v2 ++ p).

End Polyline.

(* ---------------------------------------------------------------------- *)
(** ** Step instructions (NavigationPanel) *)

Module Steps.

(** [s.includes(pattern)] *)
Fixpoint includes (pattern s : string) : bool :=
  String.prefix pattern s
  || match s with
     | EmptyString => false
     | String _ rest => includes pattern rest
     end.

(** [instruction.replace(/<[^>]*>/g, '')].  A match starts at a [<] that
    has a [>] somewhere after it and ends at the first such [>]; the scan
    goes on behind the match.  [stripTags] copies outside a match and
    [closeTag] walks inside one: it returns the stripped text behind the
    closing [>], or [None] when there is no [>], and then the [<] and all
    behind it stay as they are. *)
Fixpoint stripTags (s : string) : string :=
  match s with
  | EmptyString => EmptyString
  | String c rest =>
      if Ascii.eqb c "<"%char then
        match closeTag rest with
        | Some stripped => stripped
        | None => String c rest
        end
      else String c (stripTags rest)
  end
with closeTag (s : string) : option string :=
  match s with
  | EmptyString => None
  | String c rest =>
      if Ascii.eqb c ">"%char then Some (stripTags rest) else closeTag rest
  end.

(** The string has a [>]. *)
Fixpoint closes (s : string) : bool :=
  match s with
  | EmptyString => false
  | String c rest => Ascii.eqb c ">"%char || closes rest
  end.

(** The pattern [/<[^>]*>/] has no match in the string: no [<] has a [>]
    behind it. *)
Fixpoint tagFree (s : string) : bool :=
  match s with
  | EmptyString => true
  | String c rest => negb (Ascii.eqb c "<"%char && closes rest) && tagFree rest
  end.

(** The own property [key] of an object literal with string values. *)
Fixpoint tableLookup (table : list (string * string)) (key : string) : option string :=
  match table with
  | [] => None
  | (k, v) :: rest => if String.eqb k key then Some v else tableLookup rest key
  end.

(** The keys every object literal inherits from [Object.prototype]. *)
Definition prototypeKeys : list string :=
  [ "constructor"; "hasOwnProperty"; "isPrototypeOf"; "propertyIsEnumerable";
    "toLocaleString"; "toString"; "valueOf"; "__proto__";
    "__defineGetter__"; "__defineSetter__"; "__lookupGetter__"; "__lookupSetter__" ].

(** What a property of a table can hold: a string of the table's own, or
    the value [Object.prototype] holds under [key], which is a built-in
    function or, under [__proto__], the prototype object. *)
Inductive JsValue : Set :=
| Str (text : string)
| Inherited (key : string).

(** What a call comes to: the value it returns, or the [TypeError] of a
    call of [includes] on a value that has no such method. *)
Inductive Completion : Set :=
| Return (value : JsValue)
| TypeError.

(** Functions and objects are truthy, a string unless it is empty. *)
Definition truthy_value (value : JsValue) : bool :=
  match value with
  | Str text => Js.truthy_str text
  | Inherited _ => true
  end.

(** [table[key]]: the own property, else the inherited one, else
    [undefined]. *)
Definition lookup (table : list (string * string)) (key : string) : option JsValue :=
  match tableLookup table key with
  | Some text => Some (Str text)
  | None => if bool_decide (key ∈ prototypeKeys) then Some (Inherited key) else None
  end.

(** [table[key] || fallback] *)
Definition lookupOr (table : list (string * string)) (key fallback : string) : JsValue :=
  default (Str fallback) (Js.or truthy_value (lookup table key) None).

(** The text of a value in a template literal.  The prototype object
    reads ["[object Object]"]; the text of a built-in function is left to
    the engine, which [functionSource] stands for. *)
Definition toText (functionSource : string -> string) (value : JsValue) : string :=
  match value with
  | Str text => text
  | Inherited key =>
      if String.eqb key "__proto__" then "[object Object]" else functionSource key
  end.

(** [maneuverMap], for the given [modifier]. *)
Definition maneuverMap (modifier : option string) : list (string * string) :=
  [ ("turn", match Js.or Js.truthy_str modifier None with
             | Some m => "Turn " +:+ m
             | None => "Turn"
             end);
    ("depart", "Start your route");
    ("arrive", "You have arrived");
    ("merge", "Merge");
    ("on-ramp", "Take the ramp");
    ("off-ramp", "Exit the ramp");
    ("fork", "Take the fork");
    ("end-of-road", "Continue at end of road");
    ("continue", "Continue straight");
    ("roundabout", "Enter roundabout");
    ("rotary", "Enter rotary");
    ("roundabout-turn", "Exit roundabout");
    ("notification", "Continue");
    ("new-name", "Continue on new road");
    ("suppress", "Continue") ].

Definition modifierMap : list (string * string) :=
  [ ("left", "left");
    ("right", "right");
    ("sharp-left", "sharp left");
    ("sharp-right", "sharp right");
    ("slight-left", "slight left");
    ("slight-right", "slight right");
    ("straight", "straight");
    ("uturn", "to make a U-turn") ].

(** [formatManeuverInstruction(type, modifier, instruction)] *)
Definition formatManeuverInstruction (functionSource : string -> string)
    (type : string) (modifier instruction : option string) : Completion :=
  let fromTables :=
    let baseInstruction := lookupOr (maneuverMap modifier) type ("Continue " +:+ type) in
    match Js.or Js.truthy_str modifier None with
    | Some m =>
        let modifierText := lookupOr modifierMap m m in
        if String.eqb type "turn" then
          Return (Str ("Turn " +:+ toText functionSource modifierText))
        else
          match baseInstruction with
          | Str base =>
              if includes "Continue" base then Return (Str base)
              else Return (Str (base +:+ " " +:+ toText functionSource modifierText))
          | Inherited _ => TypeError
          end
    | None => Return baseInstruction
    end in
  match Js.or Js.truthy_str instruction None with
  | Some i => if String.eqb i type then fromTables else Return (Str i)
  | None => fromTables
  end.

(** [step.maneuver]: a string, or an object with optional [instruction]
    and [modifier]. *)
Inductive Maneuver : Set :=
| ManeuverText (text : string)
| ManeuverObject (instruction modifier : option string).

(** The properties of a route step that [getStepInstruction] reads. *)
Record Step : Set := {
  step_instructions : option string;
  step_instruction : option string;
  step_html_instructions : option string;
  step_maneuver : option Maneuver;
  step_narrative : option string;
  step_text : option string
}.

(** [step.maneuver?.instruction]: strings have no such property. *)
Definition maneuver_instruction (m : option Maneuver) : option string :=
  match m with
  | Some (ManeuverObject instruction _) => instruction
  | _ => None
  end.

(** [step.maneuver.modifier] *)
Definition maneuver_modifier (m : Maneuver) : option string :=
  match m with
  | ManeuverObject _ modifier => modifier
  | ManeuverText _ => None
  end.

(** The property key a maneuver stands for when it is passed as [type]:
    a string is itself, an object is ["[object Object]"]. *)
Definition maneuver_key (m : Maneuver) : string :=
  match m with
  | ManeuverText text => text
  | ManeuverObject _ _ => "[object Object]"
  end.

(** Truthiness of [step.maneuver]: an object always, a string unless
    empty. *)
Definition maneuver_truthy (m : Maneuver) : bool :=
  match m with
  | ManeuverText text => Js.truthy_str text
  | ManeuverObject _ _ => true
  end.

(** [getStepInstruction(step)] *)
Definition getStepInstruction (functionSource : string -> string) (step : Step) : Completion :=
  match Js.or Js.truthy_str (step_instructions step) None with
  | Some i => Return (Str i)
  | None =>
      let instruction :=
        Js.or Js.truthy_str
          (Js.or Js.truthy_str
             (Js.or Js.truthy_str
                (Js.or Js.truthy_str (step_instruction step)
                   (step_html_instructions step))
                (maneuver_instruction (step_maneuver step)))
             (step_narrative step))
          (step_text step) in
      match Js.or Js.truthy_str instruction None with
      | Some i => Return (Str (stripTags i))
      | None =>
          match step_maneuver step with
          | Some m =>
              if maneuver_truthy m
              then formatManeuverInstruction functionSource
                     (maneuver_key m) (maneuver_modifier m) None
              else Return (Str "Continue on route")
          | None => Return (Str "Continue on route")
          end
      end
  end.

End Steps.

(* ---------------------------------------------------------------------- *)
(** ** Texts of a step *)

(** The text is absent or empty. *)
Definition blank (text : option string) : Prop :=
  Js.or Js.truthy_str text None = None.

(** The first text of a list that is neither absent nor empty. *)
Fixpoint firstText (texts : list (option string)) : option string :=
  match texts with
  | [] => None
  | text :: rest =>
      match Js.or Js.truthy_str text None with
      | Some t => Some t
      | None => firstText rest
      end
  end.

(** The fallback texts of a step, in the order of the [||] chain. *)
Definition fallbackTexts (step : Steps.Step) : list (option string) :=
  [ Steps.step_instruction step; Steps.step_html_instructions step;
    Steps.maneuver_instruction (Steps.step_maneuver step);
    Steps.step_narrative step; Steps.step_text step ].

(** The call goes to the tables: no instruction comes with it, or one
    that is empty or the type itself. *)
Definition unhelped (type : string) (instruction : option string) : Prop :=
  blank instruction \/ instruction = Some type.

(* ---------------------------------------------------------------------- *)
(** ** Recent searches (SearchBar) *)

(** [interface SearchResult] *)
Record SearchResult : Set := {
  place_id : string;
  result_name : string;
  result_address : string;
  location_lat : float;
  location_lng : float;
  rating : option float;
  place_type : string
}.

(** The [updatedRecent] of [handleResultSelect]:
    [[result, ...recentSearches.filter(r => r.place_id !== result.place_id)].slice(0, 5)] *)
Definition updatedRecent (result : SearchResult) (recentSearches : list SearchResult)
  : list SearchResult :=
  take 5 (result :: filter (fun r => place_id r ≠ place_id result) recentSearches).

(* ---------------------------------------------------------------------- *)
(** ** Traffic advisories (NavigationPanel) *)

Module Traffic.

(** [s.split(separator)] for a non-empty separator: the pieces between
    the occurrences of the separator, found from left to right.  [skip]
    counts the characters of a found separator still to pass, [piece] is
    the piece read so far. *)
Fixpoint splitFrom (separator : string) (skip : nat) (piece s : string) : list string :=
  match s with
  | EmptyString => [piece]
  | String c rest =>
      match skip with
      | S skip => splitFrom separator skip piece rest
      | O =>
          if String.prefix separator s
          then piece :: splitFrom separator (String.length separator - 1) "" rest
          else splitFrom separator 0 (piece +:+ String c "") rest
      end
  end.

Definition split (separator s : string) : list string :=
  splitFrom separator 0 "" s.

(** [Math.max(a, b)]: [NaN] when an argument is; of the two zeros the
    positive one. *)
Definition Math_max (a b : float) : float :=
  if PrimFloat.is_nan a || PrimFloat.is_nan b then PrimFloat.nan
  else if (a <? b)%float then b
  else if (b <? a)%float then a
  else if PrimFloat.get_sign a then b else a.

Inductive Severity : Set := low | medium | high.

(** The [segments.forEach] loop: [maxTrafficLevel] after the segments.
    [Number] is the conversion of a string to a number. *)
Definition maxTrafficLevel (Number : string -> float) (segments : list string) : float :=
  foldl (fun maxTrafficLevel segment =>
           let values := Number <$> split "," segment in
           if (3 <=? length values)%nat then
             match values !! 2%nat with
             | Some trafficLevel => Math_max maxTrafficLevel trafficLevel
             | None => maxTrafficLevel
             end
           else maxTrafficLevel)
        0%float segments.

(** [parseTrafficInfo(travelAdvisory)]: [(hasTraffic, severity)]. *)
Definition parseTrafficInfo (Number : string -> float) (travelAdvisory : option string)
  : bool * Severity :=
  match Js.or Js.truthy_str travelAdvisory None with
  | None => (false, low)
  | Some advisory =>
      let segments := split " | " advisory in
      let maxTrafficLevel := maxTrafficLevel Number segments in
      let hasTraffic := (0 <? maxTrafficLevel)%float in
      let severity :=
        if (10 <? maxTrafficLevel)%float then high
        else if (5 <? maxTrafficLevel)%float then medium
        else low in
      (hasTraffic, severity)
  end.

End Traffic.

(* ====================================================================== *)
(** * Properties *)

(** ** The transition function *)

Lemma or_zero_id (n : Z) : Js.or_zero n = n.
Proof. unfold Js.or_zero. destruct (Z.eqb_spec n 0); congruence. Qed.

(** A tick that does not expire only decrements. *)
Lemma updateSignal_decrement (s : TrafficSignal) :
  expires s = false ->
  updateSignal s =
    {| id := id s; lat := lat s; lng := lng s; name := name s;
       currentState := currentState s; countdown := countdown s - 1;
       pedestrianWalk := bool_decide (currentState s = walk);
       cycleCount := cycleCount s; completedCycles := completedCycles s |}.
Proof.
  unfold expires, updateSignal. intros ->. by rewrite or_zero_id.
Qed.

(** A tick that expires follows the transition table. *)
Lemma updateSignal_transition (s : TrafficSignal) :
  expires s = true ->
  updateSignal s =
    match currentState s with
    | red =>
        {| id := id s; lat := lat s; lng := lng s; name := name s;
           currentState := green; countdown := 30; pedestrianWalk := false;
           cycleCount := cycleCount s; completedCycles := completedCycles s |}
    | green =>
        {| id := id s; lat := lat s; lng := lng s; name := name s;
           currentState := yellow; countdown := 6; pedestrianWalk := false;
           cycleCount := cycleCount s; completedCycles := completedCycles s |}
    | yellow =>
        if 2 <=? completedCycles s + 1 then
          {| id := id s; lat := lat s; lng := lng s; name := name s;
             currentState := walk; countdown := 20; pedestrianWalk := true;
             cycleCount := cycleCount s; completedCycles := 0 |}
        else
          {| id := id s; lat := lat s; lng := lng s; name := name s;
             currentState := red; countdown := 45; pedestrianWalk := false;
             cycleCount := cycleCount s; completedCycles := completedCycles s + 1 |}
    | walk =>
        {| id := id s; lat := lat s; lng := lng s; name := name s;
           currentState := red; countdown := 45; pedestrianWalk := false;
           cycleCount := cycleCount s; completedCycles := completedCycles s |}
    end.
Proof.
  unfold expires, updateSignal. intros ->. rewrite or_zero_id.
  destruct (currentState s); try done.
  by destruct (2 <=? completedCycles s + 1).
Qed.

(** The two cases of a tick, for case analysis in the proofs below. *)
Ltac tick_cases s :=
  let E := fresh "E" in
  destruct (expires s) eqn:E;
  [ rewrite (updateSignal_transition s E) | rewrite (updateSignal_decrement s E) ];
  unfold expires in E.

(** C1 (PhaseClock transition function).  For every signal, a tick with
    [countdown - 1 > 0] keeps the phase, decrements the countdown by one
    and leaves [completedCycles] alone; a tick with [countdown - 1 <= 0]
    goes Red to Green with 30, Green to Yellow with 6, Walk to Red with 45,
    and at Yellow increments [completedCycles] first and then goes to Walk
    with 20 and the counter reset to 0 when the new value is at least 2,
    to Red with 45 and the incremented counter otherwise.  Each of the four
    phases has its successor. *)
Theorem phase_clock_transition (s : TrafficSignal) :
  let s' := updateSignal s in
  (countdown s - 1 > 0 ->
     currentState s' = currentState s
     /\ countdown s' = countdown s - 1
     /\ completedCycles s' = completedCycles s)
  /\ (countdown s - 1 <= 0 ->
      match currentState s with
      | red => currentState s' = green /\ countdown s' = 30
      | green => currentState s' = yellow /\ countdown s' = 6
      | walk => currentState s' = red /\ countdown s' = 45
      | yellow =>
          let incremented := completedCycles s + 1 in
          (incremented >= 2 ->
             currentState s' = walk /\ countdown s' = 20 /\ completedCycles s' = 0)
          /\ (incremented < 2 ->
             currentState s' = red /\ countdown s' = 45
             /\ completedCycles s' = incremented)
      end).
Proof.
  cbv zeta. split; intros H.
  - rewrite updateSignal_decrement; [done | unfold expires; lia].
  - rewrite updateSignal_transition by (unfold expires; lia).
    destruct (currentState s); try done.
    split; intros Hk.
    + by replace (2 <=? completedCycles s + 1) with true by lia.
    + by replace (2 <=? completedCycles s + 1) with false by lia.
Qed.

(** The two transition scenarios of the specification, run on the code. *)
Example yellow_to_walk_scenario :
  let s' := updateSignal (signalAt yellow 1 1) in
  (currentState s', countdown s', pedestrianWalk s', completedCycles s')
  = (walk, 20, true, 0).
Proof. reflexivity. Qed.

Example walk_to_red_scenario :
  let s' := updateSignal (signalAt walk 1 0) in
  (currentState s', countdown s', pedestrianWalk s') = (red, 45, false).
Proof. reflexivity. Qed.

(** ** What the factories produce *)

Lemma getInitialState_cases (i : nat) :
  getInitialState i = red \/ getInitialState i = green \/ getInitialState i = yellow.
Proof.
  unfold getInitialState.
  destruct (i mod 3)%nat as [|[|?]]; auto.
Qed.

Lemma getInitialState_not_walk (i : nat) : getInitialState i ≠ walk.
Proof. destruct (getInitialState_cases i) as [-> | [-> | ->]]; done. Qed.

(** The binary64 product and [Math.floor] give the exact fifth of each of
    the four durations. *)
Lemma minTimeOf_baseCountdowns (state : SignalState) :
  minTimeOf (baseCountdowns state) = Z.max 5 (baseCountdowns state / 5).
Proof. destruct state; vm_compute; reflexivity. Qed.

Lemma minTimeOf_bounds (state : SignalState) :
  5 <= minTimeOf (baseCountdowns state) <= baseCountdowns state.
Proof. destruct state; vm_compute; split; discriminate. Qed.

Lemma getInitialCountdown_bounds (state : SignalState) (i : nat) :
  minTimeOf (baseCountdowns state) <= getInitialCountdown state i
    <= baseCountdowns state.
Proof.
  unfold getInitialCountdown.
  pose proof (minTimeOf_bounds state) as Hm.
  set (m := minTimeOf (baseCountdowns state)) in *.
  pose proof (Z.rem_bound_pos (Z.of_nat i * 7 + 13) (baseCountdowns state - m + 1)).
  lia.
Qed.


Lemma demoSignal_seeded (la ln : float) (i : nat) : seeded i (demoSignal la ln i).
Proof. by split. Qed.

Lemma enhanceSignal_seeded (i : nat) (c : RawCandidate) (s : TrafficSignal) :
  enhanceSignal i c = Some s -> seeded i s.
Proof.
  unfold enhanceSignal.
  destruct (resolved_lat c) as [la|]; [|done].
  destruct (resolved_lng c) as [ln|]; [|done].
  destruct (Js.truthy la && Js.truthy ln); [|done].
  intros [= <-]. by split.
Qed.

Lemma elem_of_createDemoSignals (la ln : float) (s : TrafficSignal) :
  s ∈ createDemoSignals la ln <-> exists i, (i < 4)%nat /\ s = demoSignal la ln i.
Proof.
  unfold createDemoSignals. rewrite list_elem_of_fmap. split.
  - intros (i & -> & Hi). exists i. split; [|done].
    apply elem_of_seq in Hi. lia.
  - intros (i & Hi & ->). exists i. split; [done|].
    apply elem_of_seq. lia.
Qed.

Lemma elem_of_enhancedSignals (signalData : list RawCandidate) (s : TrafficSignal) :
  s ∈ enhancedSignals signalData <->
  exists i c, signalData !! i = Some c /\ enhanceSignal i c = Some s.
Proof.
  unfold enhancedSignals. rewrite list_elem_of_omap. split.
  - intros (o & Ho & Hs). apply elem_of_lookup_imap in Ho as (i & c & -> & Hc).
    by exists i, c.
  - intros (i & c & Hc & Hs). exists (Some s). split; [|done].
    apply elem_of_lookup_imap. by exists i, c.
Qed.

Lemma created_seeded (s : TrafficSignal) :
  (exists la ln, s ∈ createDemoSignals la ln)
  \/ (exists signalData, s ∈ enhancedSignals signalData) ->
  exists i, seeded i s.
Proof.
  intros [(la & ln & H) | (d & H)].
  - apply elem_of_createDemoSignals in H as (i & _ & ->).
    exists i. apply demoSignal_seeded.
  - apply elem_of_enhancedSignals in H as (i & c & _ & H).
    exists i. by apply enhanceSignal_seeded in H.
Qed.

(** Induction over [reachable] with the two factory cases merged. *)
Lemma reachable_invariant (P : TrafficSignal -> Prop) :
  (forall i s, seeded i s -> P s) ->
  (forall s, P s -> P (updateSignal s)) ->
  forall s, reachable s -> P s.
Proof.
  intros Hseed Htick s Hs.
  induction Hs as [la ln s H | d s H | s _ IH].
  - destruct (created_seeded s) as [i Hi]; eauto.
  - destruct (created_seeded s) as [i Hi]; eauto.
  - by apply Htick.
Qed.

(** ** Pedestrian flag *)

Lemma pedestrianWalk_updateSignal (s : TrafficSignal) :
  pedestrianWalk (updateSignal s) = bool_decide (currentState (updateSignal s) = walk).
Proof.
  tick_cases s; [|done].
  destruct (currentState s); try done.
  by destruct (2 <=? completedCycles s + 1).
Qed.

(** C3 (pedestrian flag consistency).  In every reachable signal state,
    right after creation by either factory and after every tick, the
    [pedestrianWalk] flag is true if and only if the phase is Walk. *)
Theorem pedestrian_flag_consistency (s : TrafficSignal) :
  reachable s ->
  (pedestrianWalk s = true <-> currentState s = walk).
Proof.
  revert s. apply reachable_invariant.
  - intros i s [Hst _ Hw _ _]. rewrite Hw, Hst.
    pose proof (getInitialState_not_walk i). split; [done | congruence].
  - intros s _. rewrite pedestrianWalk_updateSignal. apply bool_decide_eq_true.
Qed.

Lemma pedestrian_flag_consistency_witness :
  let s := ticks 170 (demoSignal 28.7041 77.1025 0) in
  reachable s /\ (pedestrianWalk s = true <-> currentState s = walk).
Proof.
  cbv zeta.
  assert (R : forall n, reachable (ticks n (demoSignal 28.7041 77.1025 0))).
  { induction n as [|n IH]; [|by apply reachable_tick].
    apply (reachable_demo 28.7041 77.1025).
    apply elem_of_createDemoSignals. exists 0%nat. split; [lia | done]. }
  split; [apply R | apply (pedestrian_flag_consistency _ (R 170%nat))].
Defined.

(** ** Countdown *)

Lemma countdown_updateSignal_pos (s : TrafficSignal) : 0 < countdown (updateSignal s).
Proof.
  tick_cases s; [|simpl; lia].
  destruct (currentState s); try done.
  by destruct (2 <=? completedCycles s + 1).
Qed.

Lemma countdown_reset (s : TrafficSignal) :
  expires s = true ->
  countdown (updateSignal s) = baseCountdowns (currentState (updateSignal s))
  /\ currentState (updateSignal s) ≠ currentState s.
Proof.
  intros E. rewrite (updateSignal_transition s E).
  destruct (currentState s); try done.
  by destruct (2 <=? completedCycles s + 1).
Qed.

(** C4 (countdown non-negativity and reset).  The countdown is at least 0
    in every reachable state and no tick produces a negative one; a tick
    decreases it by exactly 1 unless that would reach 0 or below, and then
    sets it to the fixed duration of the phase entered (45, 30, 6 or 20). *)
Theorem countdown_nonneg_and_reset :
  (forall s, reachable s -> 0 <= countdown s)
  /\ (forall s, 0 <= countdown (updateSignal s))
  /\ (forall s, countdown s - 1 > 0 ->
        countdown (updateSignal s) = countdown s - 1)
  /\ (forall s, countdown s - 1 <= 0 ->
        let s' := updateSignal s in
        currentState s' ≠ currentState s
        /\ countdown s' = baseCountdowns (currentState s')
        /\ (countdown s' = 45 \/ countdown s' = 30
            \/ countdown s' = 6 \/ countdown s' = 20)).
Proof.
  split; [|split; [|split]].
  - apply reachable_invariant.
    + intros i s [_ Hc _ _ _]. rewrite Hc.
      pose proof (getInitialCountdown_bounds (getInitialState i) i).
      pose proof (minTimeOf_bounds (getInitialState i)). lia.
    + intros s _. pose proof (countdown_updateSignal_pos s). lia.
  - intros s. pose proof (countdown_updateSignal_pos s). lia.
  - intros s H. rewrite updateSignal_decrement; [done | unfold expires; lia].
  - intros s H s'. subst s'.
    destruct (countdown_reset s) as [Hc Hne]; [unfold expires; lia|].
    split; [done|]. split; [done|]. rewrite Hc.
    destruct (currentState (updateSignal s)); simpl; auto.
Qed.

(** ** Demo seeding *)



(** The scenario of the specification: the four demo signals at the
    fallback anchor, as the code builds them. *)
Example demo_seeding_scenario :
  (fun s => (id s, lat s, lng s, currentState s, countdown s))
    <$> createDemoSignals 28.7041 77.1025
  = [ ("demo_signal_1", 28.705100000000002%float, 77.103500000000011%float, red, 22);
      ("demo_signal_2", 28.702100000000002%float, 77.104500000000002%float, green, 26);
      ("demo_signal_3", 28.707100000000001%float, 77.099500000000006%float, yellow, 6);
      ("demo_signal_4", 28.700099999999999%float, 77.098500000000001%float, red, 43) ].
Proof. vm_compute. reflexivity. Qed.

(** ** Traces of one signal *)

Lemma ticks_S (n : nat) (s : TrafficSignal) :
  ticks (S n) s = updateSignal (ticks n s).
Proof. reflexivity. Qed.

(** The clock part of a tick depends on the clock part only. *)
Lemma core_updateSignal (a b : TrafficSignal) :
  core a = core b -> core (updateSignal a) = core (updateSignal b).
Proof.
  destruct a as [? ? ? ? st c ? ? k], b. unfold core. simpl. intros [= <- <- <-].
  unfold updateSignal. simpl.
  destruct (c - 1 <=? 0); [|done].
  destruct st; try done. by destruct (2 <=? Js.or_zero k + 1).
Qed.

Lemma core_ticks (n : nat) (a b : TrafficSignal) :
  core a = core b -> core (ticks n a) = core (ticks n b).
Proof.
  intros H. induction n as [|n IH]; [done|].
  rewrite !ticks_S. by apply core_updateSignal.
Qed.


Lemma countTicks_core p (n : nat) (a b : TrafficSignal) :
  clockOnly p -> core a = core b -> countTicks p n a = countTicks p n b.
Proof.
  intros Hp H. induction n as [|n IH]; [done|].
  simpl. rewrite IH. by rewrite (Hp _ _ (core_ticks n a b H)).
Qed.

Lemma currentState_core (a b : TrafficSignal) :
  core a = core b -> currentState a = currentState b.
Proof. unfold core. by intros [= -> _ _]. Qed.

Lemma entersWalk_clockOnly : clockOnly entersWalk.
Proof.
  intros a b H. unfold entersWalk.
  rewrite (currentState_core _ _ H).
  by rewrite (currentState_core _ _ (core_updateSignal _ _ H)).
Qed.

Lemma leavesWalk_clockOnly : clockOnly leavesWalk.
Proof.
  intros a b H. unfold leavesWalk.
  rewrite (currentState_core _ _ H).
  by rewrite (currentState_core _ _ (core_updateSignal _ _ H)).
Qed.

(** ** Walk cadence *)

Lemma yellowExit_spec (s : TrafficSignal) :
  yellowExit s = true <-> currentState s = yellow /\ expires s = true.
Proof.
  unfold yellowExit. rewrite andb_true_iff, bool_decide_eq_true. done.
Qed.

(** Walk is entered at a Yellow exit and nowhere else. *)
Lemma entersWalk_yellowExit (s : TrafficSignal) :
  entersWalk s = true -> yellowExit s = true.
Proof.
  unfold entersWalk. rewrite andb_true_iff, !bool_decide_eq_true.
  intros [Hs Hw]. apply yellowExit_spec. revert Hw. tick_cases s.
  - destruct (currentState s); try done.
  - simpl. done.
Qed.

(** Division of [k] by 2, spelled out for [lia]. *)
Ltac mod2_facts k :=
  pose proof (Nat.div_mod_eq k 2);
  pose proof (Nat.mod_upper_bound k 2 ltac:(lia)).

(** What a tick does to [completedCycles]. *)
Lemma completedCycles_updateSignal (t : TrafficSignal) :
  completedCycles (updateSignal t) =
    if yellowExit t
    then (if 2 <=? completedCycles t + 1 then 0 else completedCycles t + 1)
    else completedCycles t.
Proof.
  unfold yellowExit. tick_cases t.
  - rewrite andb_true_r.
    destruct (currentState t); try done.
    by destruct (2 <=? completedCycles t + 1).
  - by rewrite andb_false_r.
Qed.

(** From a fresh counter, [completedCycles] is the number of Yellow exits
    so far, modulo 2. *)
Lemma completedCycles_parity (s : TrafficSignal) (n : nat) :
  completedCycles s = 0 ->
  completedCycles (ticks n s) = Z.of_nat (yellowExits n s mod 2).
Proof.
  intros H0. induction n as [|n IH]; [done|].
  rewrite ticks_S, completedCycles_updateSignal.
  unfold yellowExits in *. cbn [countTicks].
  set (k := countTicks yellowExit n s) in *.
  destruct (yellowExit (ticks n s)); rewrite IH.
  - mod2_facts k. mod2_facts (k + 1)%nat.
    destruct (Z.leb_spec 2 (Z.of_nat (k mod 2) + 1)); lia.
  - by rewrite Nat.add_0_r.
Qed.

(** A tick enters Walk exactly when it is a Yellow exit that follows an
    odd number of Yellow exits. *)
Lemma entersWalk_parity (t : TrafficSignal) (k : nat) :
  completedCycles t = Z.of_nat (k mod 2) ->
  entersWalk t = yellowExit t && (k mod 2 =? 1)%nat.
Proof.
  intros Hk. destruct (yellowExit t) eqn:Hy; cbn [andb].
  - apply yellowExit_spec in Hy as [Hst He].
    unfold entersWalk. rewrite (updateSignal_transition t He), Hst, Hk.
    mod2_facts k.
    destruct (Z.leb_spec 2 (Z.of_nat (k mod 2) + 1));
      destruct (Nat.eqb_spec (k mod 2) 1); first [reflexivity | lia].
  - destruct (entersWalk t) eqn:Hw; [|done].
    apply entersWalk_yellowExit in Hw. congruence.
Qed.

(** From a fresh counter, the Walk phases entered are half the Yellow
    exits, rounded down. *)
Lemma walkPhasesEntered_half (s : TrafficSignal) (n : nat) :
  completedCycles s = 0 ->
  walkPhasesEntered n s = (yellowExits n s / 2)%nat.
Proof.
  intros H0. induction n as [|n IH]; [done|].
  pose proof (completedCycles_parity s n H0) as Hk.
  unfold walkPhasesEntered, yellowExits in *. cbn [countTicks].
  rewrite IH, (entersWalk_parity _ _ Hk).
  set (k := countTicks yellowExit n s).
  mod2_facts k. mod2_facts (k + 1)%nat.
  destruct (yellowExit (ticks n s)); cbn [andb].
  - destruct (Nat.eqb_spec (k mod 2) 1); lia.
  - by rewrite !Nat.add_0_r.
Qed.

(** C6 (Walk periodicity).  Along the trace of a signal that starts with
    [completedCycles = 0], a Yellow exit enters Walk exactly when it is the
    2nd, 4th, 6th, ... Yellow exit of the trace, never when it is the 1st,
    3rd, 5th, ...; Walk is entered at Yellow exits only; so at any time
    the Walk phases entered are half the Yellow exits, rounded down. *)
Theorem walk_periodicity (s : TrafficSignal) (n : nat) :
  completedCycles s = 0 ->
  let t := ticks n s in
  (yellowExit t = true ->
     (currentState (updateSignal t) = walk <-> Nat.Even (yellowExits (S n) s)))
  /\ (entersWalk t = true -> yellowExit t = true)
  /\ walkPhasesEntered n s = (yellowExits n s / 2)%nat.
Proof.
  intros H0 t.
  split; [|split; [apply entersWalk_yellowExit | by apply walkPhasesEntered_half]].
  intros Hy. pose proof (completedCycles_parity s n H0) as Hk. fold t in Hk.
  unfold yellowExits in *. cbn [countTicks]. fold t. rewrite Hy.
  apply yellowExit_spec in Hy as [Hst He].
  rewrite (updateSignal_transition t He), Hst, Hk.
  set (k := countTicks yellowExit n s).
  mod2_facts k.
  destruct (Z.leb_spec 2 (Z.of_nat (k mod 2) + 1)) as [Hc | Hc]; cbn [currentState].
  - split; [intros _ | done]. exists (S (k / 2)). lia.
  - split; [done | intros [c Hc']]. lia.
Qed.

Lemma walk_periodicity_witness :
  let s := demoSignal 28.7041 77.1025 2 in
  completedCycles s = 0
  /\ (yellowExit (ticks 86 s) = true ->
        (currentState (updateSignal (ticks 86 s)) = walk
         <-> Nat.Even (yellowExits 87 s)))
  /\ walkPhasesEntered 86 s = (yellowExits 86 s / 2)%nat.
Proof.
  cbv zeta. split; [reflexivity|].
  destruct (walk_periodicity (demoSignal 28.7041 77.1025 2) 86 eq_refl)
    as (Hy & _ & Hw).
  exact (conj Hy Hw).
Defined.

(** ** Cycle law *)


Lemma inWalk_clockOnly : clockOnly inWalk.
Proof. intros a b H. unfold inWalk. by rewrite (currentState_core _ _ H). Qed.

(** After 162 ticks the first Walk phase has only just begun: none of its
    20 seconds is spent and it has not been left. *)
Lemma cycle_law_as_stated_fails : ~ cycle_law_as_stated (signalAt red 45 0).
Proof. intros (_ & _ & H & _). vm_compute in H. discriminate. Qed.

(** C2 (cycle law, amended).  From Red/45/0, exactly 81 ticks lead to
    Red/45 with [completedCycles = 1]; exactly 162 ticks lead into the
    first Walk phase (Walk/20, counter reset, entered once and not yet
    left); that Walk phase lasts 20 ticks and is passed through after
    exactly 182 ticks, when the signal is back at Red/45/0. *)
Theorem cycle_law (s : TrafficSignal) :
  core s = (red, 45, 0) ->
  core (ticks 81 s) = (red, 45, 1)
  /\ (core (ticks 162 s) = (walk, 20, 0)
      /\ walkPhasesEntered 162 s = 1%nat
      /\ walkPhasesPassed 162 s = 0%nat
      /\ walkTicks 162 s = 0%nat)
  /\ (core (ticks 182 s) = (red, 45, 0)
      /\ walkPhasesEntered 182 s = 1%nat
      /\ walkPhasesPassed 182 s = 1%nat
      /\ walkPhasesPassed 181 s = 0%nat
      /\ walkTicks 182 s = 20%nat).
Proof.
  intros H.
  assert (H' : core s = core (signalAt red 45 0)) by exact H.
  unfold walkPhasesEntered, walkPhasesPassed, walkTicks.
  rewrite !(core_ticks _ _ _ H').
  rewrite !(countTicks_core _ _ _ _ entersWalk_clockOnly H').
  rewrite !(countTicks_core _ _ _ _ leavesWalk_clockOnly H').
  rewrite !(countTicks_core _ _ _ _ inWalk_clockOnly H').
  vm_compute. repeat split.
Qed.

Lemma cycle_law_witness :
  core (signalAt red 45 0) = (red, 45, 0)
  /\ core (ticks 81 (signalAt red 45 0)) = (red, 45, 1)
  /\ core (ticks 162 (signalAt red 45 0)) = (walk, 20, 0)
  /\ walkPhasesPassed 182 (signalAt red 45 0) = 1%nat.
Proof.
  split; [reflexivity|].
  destruct (cycle_law (signalAt red 45 0) eq_refl)
    as (H81 & (H162 & _) & (_ & _ & H182 & _)).
  exact (conj H81 (conj H162 H182)).
Defined.

(** ** Frame of a tick *)

Lemma updateSignal_frame (s : TrafficSignal) :
  id (updateSignal s) = id s
  /\ lat (updateSignal s) = lat s
  /\ lng (updateSignal s) = lng s
  /\ name (updateSignal s) = name s.
Proof.
  tick_cases s; [|done].
  destruct (currentState s); try done.
  by destruct (2 <=? completedCycles s + 1).
Qed.

(** C9 (tick frame condition).  One tick of a signal set leaves every
    signal's [id], [lat], [lng] and [name] as they were, and keeps the
    number of signals and their order: the signal at each index is the
    ticked signal of that index. *)
Theorem tick_frame (prev : list TrafficSignal) :
  length (updateSignalStates prev) = length prev
  /\ (forall i, updateSignalStates prev !! i = updateSignal <$> prev !! i)
  /\ (forall i s', updateSignalStates prev !! i = Some s' ->
        exists s, prev !! i = Some s
          /\ id s' = id s /\ lat s' = lat s /\ lng s' = lng s /\ name s' = name s)
  /\ id <$> updateSignalStates prev = id <$> prev.
Proof.
  unfold updateSignalStates. split; [apply length_fmap|].
  split; [intros i; apply list_lookup_fmap|]. split.
  - intros i s'. rewrite list_lookup_fmap, fmap_Some.
    intros (s & Hs & ->). exists s. split; [done|]. apply updateSignal_frame.
  - rewrite <- list_fmap_compose. apply list_fmap_ext.
    intros i s _. simpl. apply updateSignal_frame.
Qed.

(** ** The [cycleCount] field *)

Lemma cycleCount_updateSignal (s : TrafficSignal) :
  cycleCount (updateSignal s) = cycleCount s.
Proof.
  tick_cases s; [|done].
  destruct (currentState s); try done.
  by destruct (2 <=? completedCycles s + 1).
Qed.

(** C10 (the [cycleCount] field).  [cycleCount] is a field of its own,
    set to 0 by both factories and copied by every tick, so it is 0 in
    every reachable state, also where [completedCycles] is not; a tick
    does the same to all other fields whatever [cycleCount] holds, so the
    field has no part in any transition. *)
Theorem cycleCount_inert :
  (forall la ln s, s ∈ createDemoSignals la ln -> cycleCount s = 0)
  /\ (forall signalData s, s ∈ enhancedSignals signalData -> cycleCount s = 0)
  /\ (forall s, cycleCount (updateSignal s) = cycleCount s)
  /\ (forall s, reachable s -> cycleCount s = 0)
  /\ (forall n s, updateSignal (withCycleCount n s) = withCycleCount n (updateSignal s))
  /\ (exists s, reachable s /\ cycleCount s = 0 /\ completedCycles s = 1).
Proof.
  split; [|split; [|split; [|split; [|split]]]].
  - intros la ln s H. destruct (created_seeded s) as [i []]; eauto.
  - intros d s H. destruct (created_seeded s) as [i []]; eauto.
  - apply cycleCount_updateSignal.
  - apply reachable_invariant.
    + by intros i s [].
    + intros s H. by rewrite cycleCount_updateSignal.
  - intros n s. unfold updateSignal, withCycleCount. simpl.
    destruct (countdown s - 1 <=? 0); [|done].
    destruct (currentState s); try done.
    by destruct (2 <=? Js.or_zero (completedCycles s) + 1).
  - exists (ticks 6 (demoSignal 28.7041 77.1025 2)). split; [|by vm_compute].
    do 6 apply reachable_tick. apply (reachable_demo 28.7041 77.1025).
    apply elem_of_createDemoSignals. exists 2%nat. split; [lia | done].
Qed.

(** ** Adaptation of raw candidates *)


Lemma truthy_number (x : float) :
  Js.truthy x = isNumber x && negb (PrimFloat.is_zero x).
Proof.
  unfold Js.truthy, isNumber.
  by destruct (PrimFloat.is_zero x), (PrimFloat.is_nan x).
Qed.

(** The adapter keeps a candidate exactly when the latitude and the
    longitude it resolved are both truthy. *)
Lemma enhanceSignal_is_Some (i : nat) (c : RawCandidate) :
  is_Some (enhanceSignal i c) <->
  Js.truthy_opt Js.truthy (resolved_lat c) = true
  /\ Js.truthy_opt Js.truthy (resolved_lng c) = true.
Proof.
  unfold enhanceSignal.
  destruct (resolved_lat c) as [la|], (resolved_lng c) as [ln|]; simpl;
    [destruct (Js.truthy la), (Js.truthy ln); simpl | | | ];
    first [ by split; [intros _ | intros _; eexists]
          | by split; [intros [? ?] | intros [? ?]] ].
Qed.

(** A chain [a || b || c] is truthy exactly when one of its operands is. *)
Lemma or_chain_truthy (a b d : option float) :
  Js.truthy_opt Js.truthy (Js.or Js.truthy (Js.or Js.truthy a b) d)
  = existsb (Js.truthy_opt Js.truthy) [a; b; d].
Proof.
  unfold Js.or. simpl.
  destruct (Js.truthy_opt Js.truthy a) eqn:Ea; simpl; [by rewrite Ea|].
  destruct (Js.truthy_opt Js.truthy b) eqn:Eb; simpl; [by rewrite Eb|].
  by rewrite orb_false_r.
Qed.

(** Apart from stored zeros the adapter does what the specification says:
    a candidate is kept exactly when it has a resolvable coordinate. *)
Lemma adaptation_zeroFree (i : nat) (c : RawCandidate) :
  zeroFree c = true ->
  (is_Some (enhanceSignal i c) <-> resolvable c = true).
Proof.
  intros Hz. rewrite enhanceSignal_is_Some.
  unfold resolved_lat, resolved_lng. rewrite !or_chain_truthy.
  unfold resolvable. rewrite andb_true_iff.
  assert (Hx : forall x : option float,
             negb (Js.truthy_opt PrimFloat.is_zero x) = true ->
             Js.truthy_opt Js.truthy x = Js.truthy_opt isNumber x).
  { intros [x|]; simpl; [|done]. rewrite truthy_number.
    intros ->. by rewrite andb_true_r. }
  unfold zeroFree, lat_sources, lng_sources in *. simpl in Hz.
  repeat (apply andb_true_iff in Hz as [?%Hx Hz]).
  simpl. by repeat match goal with H : Js.truthy_opt Js.truthy _ = _ |- _ =>
                             rewrite H; clear H end.
Qed.

(** C7 (external-candidate adaptation) on a candidate with explicit
    fields [lat: 0, lng: 77.1025].  The candidate has a resolvable
    coordinate, but its explicit latitude 0 is falsy, the chain of [||]
    resolves to [undefined], and the adapter drops it: alone it yields the
    empty set, and in a batch it is left out while the other candidate is
    adapted with its own index. *)
Theorem zero_latitude_candidate_dropped :
  resolvable onEquator = true
  /\ raw_lat onEquator = Some 0%float
  /\ resolved_lat onEquator = None
  /\ enhanceSignal 0 onEquator = None
  /\ enhancedSignals [onEquator] = []
  /\ (fun s => (id s, lat s, lng s, name s, currentState s, countdown s))
       <$> enhancedSignals [onEquator; inDelhi]
     = [("global_signal_1", 28.7041%float, 77.1025%float, "Ring Rd", green, 26)].
Proof. vm_compute. repeat split. Qed.

(** ** The timer effect *)


Lemma timerDepsOf_nonempty (o : Overlay) :
  trafficSignals o ≠ [] -> timerDepsOf o = true.
Proof.
  intros H. unfold timerDepsOf. apply bool_decide_eq_true.
  destruct (trafficSignals o); [done | simpl; lia].
Qed.

(** While running, a non-empty set is installed without the timer effect
    running again. *)
Lemma setTrafficSignals_running (h : positive) (o : Overlay) updater :
  running h o -> updater (trafficSignals o) ≠ [] ->
  setTrafficSignals updater o = withSignals (updater (trafficSignals o)) o
  /\ running h (setTrafficSignals updater o).
Proof.
  intros [Hs Hr Ht Hn Hd Hc] Hne.
  assert (E : setTrafficSignals updater o = withSignals (updater (trafficSignals o)) o).
  { unfold setTrafficSignals, commit. fold (withSignals (updater (trafficSignals o)) o).
    rewrite (timerDepsOf_nonempty (withSignals _ o)) by done.
    rewrite decide_True; done. }
  split; [done|]. rewrite E. by split.
Qed.

Lemma updateSignalStates_nonempty (l : list TrafficSignal) :
  l ≠ [] -> updateSignalStates l ≠ [].
Proof. by destruct l. Qed.

Lemma fire_running (h : positive) (o : Overlay) :
  running h o ->
  fire h o = withSignals (updateSignalStates (trafficSignals o)) o
  /\ running h (fire h o).
Proof.
  intros H. unfold fire. rewrite decide_True.
  - apply setTrafficSignals_running; [done|].
    apply updateSignalStates_nonempty, H.
  - rewrite (running_timers _ _ H). set_solver.
Qed.

Lemma fires_running (h : positive) (o : Overlay) (n : nat) :
  running h o ->
  running h (Nat.iter n (fire h) o)
  /\ trafficSignals (Nat.iter n (fire h) o)
     = Nat.iter n updateSignalStates (trafficSignals o)
  /\ timers (Nat.iter n (fire h) o) = timers o.
Proof.
  intros H. induction n as [|n (IHr & IHs & IHt)]; [done|].
  simpl. destruct (fire_running h _ IHr) as [E R].
  split; [done|]. rewrite E. simpl. by rewrite IHs, IHt.
Qed.

(** The overlay runs on interval 1 once the demo signals are installed. *)
Lemma started_running (la ln : float) : running 1 (started la ln).
Proof.
  unfold started, replaceSignals, setTrafficSignals, commit, timerEffect. simpl.
  split; simpl; first [done | set_solver].
Qed.

(** The adapted candidates are installed on the running interval. *)
Lemma enhanceAllSignals_running (h : positive) (o : Overlay) signalData :
  running h o ->
  running h (enhanceAllSignals signalData o)
  /\ timers (enhanceAllSignals signalData o) = timers o.
Proof.
  intros R. unfold enhanceAllSignals.
  destruct (enhancedSignals signalData) as [|s l] eqn:E; simpl; [done|].
  destruct (setTrafficSignals_running h o (fun _ => s :: l) R) as [E' R']; [done|].
  unfold replaceSignals. split; [done|]. by rewrite E'.
Qed.

(** While the demo overlay is running, installing the set adapted from a
    discovered candidate leaves interval 1 live and starts no other. *)
Lemma restart_rule_as_stated_fails :
  ~ restart_rule_as_stated (started 28.7041 77.1025) (enhancedSignals [inDelhi]).
Proof.
  intros (Hstop & _).
  pose proof (started_running 28.7041 77.1025) as R.
  destruct (setTrafficSignals_running 1 _
              (fun _ => enhancedSignals [inDelhi]) R) as [E _]; [done|].
  assert (H1 : 1%positive ∈ timers (started 28.7041 77.1025)).
  { rewrite (running_timers _ _ R). set_solver. }
  assert (H2 : 1%positive ∈ timers (replaceSignals (enhancedSignals [inDelhi])
                                      (started 28.7041 77.1025))).
  { unfold replaceSignals. rewrite E. exact H1. }
  exact (Hstop _ H1 H2).
Qed.

(** The interval is cleared when the set becomes empty ... *)
Lemma cadence_stops_on_empty (h : positive) (o : Overlay) :
  running h o -> idle h (replaceSignals [] o).
Proof.
  intros [Hs Hr Ht Hn Hd Hc].
  unfold replaceSignals, setTrafficSignals, commit, timerDepsOf. simpl.
  rewrite Hd, Hc. simpl. unfold clearCurrentInterval, timerEffect. simpl.
  rewrite Hr. simpl. split; simpl; try done. rewrite Ht. apply difference_diag_L.
Qed.

(** ... and a new one is set when a set is installed after that. *)
Lemma cadence_restarts_after_empty (h : positive) (o : Overlay) signals :
  idle h o -> signals ≠ [] ->
  running (nextTimer o) (replaceSignals signals o)
  /\ h ≠ nextTimer o
  /\ trafficSignals (replaceSignals signals o) = signals.
Proof.
  intros [Hs Hr Ht Hn Hd Hc] Hne.
  unfold replaceSignals, setTrafficSignals, commit. simpl.
  set (o1 := {| trafficSignals := signals |}).
  rewrite (timerDepsOf_nonempty o1) by done. subst o1. simpl.
  rewrite Hd, Hc. simpl. unfold timerEffect, clearCurrentInterval. simpl.
  destruct signals as [|s l]; [done|]. simpl. rewrite Hr. simpl.
  split; [|split; [lia | done]].
  split; simpl; try done; [|lia].
  rewrite Ht, empty_difference_L. apply (right_id_L ∅ (∪)).
Qed.

(** Callbacks of intervals that are not live do nothing. *)
Lemma fire_idle (h : positive) (o : Overlay) (due : list positive) :
  idle h o -> foldl (fun o h => fire h o) o due = o.
Proof.
  intros I. induction due as [|d due IH]; [done|].
  simpl. unfold fire at 2. rewrite decide_False; [done|].
  rewrite (idle_timers _ _ I). apply not_elem_of_empty.
Qed.

(** An update of a running scheduler clears the interval when it leaves
    no signal, and leaves it alone otherwise. *)
Lemma setTrafficSignals_timers (h : positive) (o : Overlay) updater :
  running h o ->
  (updater (trafficSignals o) = [] -> timers (setTrafficSignals updater o) = ∅)
  /\ (updater (trafficSignals o) ≠ [] -> timers (setTrafficSignals updater o) = {[h]}).
Proof.
  intros R. split; intros E.
  - assert (Heq : setTrafficSignals updater o = replaceSignals [] o).
    { unfold replaceSignals, setTrafficSignals. by rewrite E. }
    rewrite Heq. apply (idle_timers h), cadence_stops_on_empty, R.
  - destruct (setTrafficSignals_running h o updater R E) as [_ R'].
    apply R'.
Qed.

(** C8 (scheduler restart rule, amended).  While the scheduler runs on
    interval [h], replacing the signal set by another non-empty set does
    not touch the timer: [h] stays the one live interval and no other is
    started, so there is a single tick loop; the new set is installed, and
    every later firing of [h] ticks that set, whatever the old one was.
    An update clears the interval when, and only when, the render it
    causes sees the set empty; no interval coming due changes the overlay
    then; and the next render that sees a set again sets a new interval,
    which is the only live one. *)
Theorem restart_rule (h : positive) (o : Overlay) (signals : list TrafficSignal) :
  running h o -> signals ≠ [] ->
  let o' := replaceSignals signals o in
  let emptied := replaceSignals [] o' in
  let refilled := replaceSignals signals emptied in
  running h o'
  /\ timers o' = timers o
  /\ intervalRef o' = intervalRef o
  /\ trafficSignals o' = signals
  /\ (forall n, running h (Nat.iter n (fire h) o')
        /\ timers (Nat.iter n (fire h) o') = {[h]}
        /\ trafficSignals (Nat.iter n (fire h) o')
           = Nat.iter n updateSignalStates signals)
  /\ (forall updater,
        (updater signals = [] -> timers (setTrafficSignals updater o') = ∅)
        /\ (updater signals ≠ [] -> timers (setTrafficSignals updater o') = {[h]}))
  /\ (trafficSignals emptied = [] /\ timers emptied = ∅
      /\ forall due, foldl (fun o h => fire h o) emptied due = emptied)
  /\ (exists h', h' ≠ h /\ running h' refilled /\ timers refilled = {[h']}
                 /\ trafficSignals refilled = signals).
Proof.
  intros R Hne o' emptied refilled.
  destruct (setTrafficSignals_running h o (fun _ => signals) R Hne) as [E R'].
  fold (replaceSignals signals o) in E, R'. fold o' in E, R'.
  pose proof (cadence_stops_on_empty h o' R') as I. fold emptied in I.
  destruct (cadence_restarts_after_empty h emptied signals I Hne) as (R2 & Hh & S2).
  fold refilled in R2, S2.
  split; [done|]. rewrite E. simpl.
  split; [done|]. split; [done|]. split; [done|]. split; [|split; [|split]].
  - intros n. rewrite <- E.
    destruct (fires_running h o' n R') as (Rn & Sn & Tn).
    split; [done|]. split.
    + rewrite Tn. apply R'.
    + rewrite Sn, E. done.
  - intros updater. rewrite <- E.
    pose proof (setTrafficSignals_timers h o' updater R') as H.
    assert (Hs : trafficSignals o' = signals) by (by rewrite E).
    rewrite Hs in H. exact H.
  - split; [apply I|]. split; [apply I|]. intros due. by apply (fire_idle h).
  - exists (nextTimer emptied). split; [done|]. split; [done|].
    split; [apply R2 | done].
Qed.

Lemma restart_rule_witness :
  let o := started 28.7041 77.1025 in
  let signals := createDemoSignals 12.9716 77.5946 in
  let o' := replaceSignals signals o in
  running 1 o /\ signals ≠ []
  /\ timers o' = timers o
  /\ trafficSignals (Nat.iter 3 (fire 1) o') = Nat.iter 3 updateSignalStates signals
  /\ timers (replaceSignals [] o') = ∅
  /\ (exists h', h' ≠ 1%positive
        /\ running h' (replaceSignals signals (replaceSignals [] o'))).
Proof.
  cbv zeta.
  assert (Hne : createDemoSignals 12.9716 77.5946 ≠ []) by done.
  split; [apply started_running|]. split; [exact Hne|].
  destruct (restart_rule 1 (started 28.7041 77.1025)
              (createDemoSignals 12.9716 77.5946)
              (started_running 28.7041 77.1025) Hne)
    as (_ & Ht & _ & _ & Hn & _ & (_ & He & _) & (h' & Hh & R' & _)).
  split; [exact Ht|]. split; [apply (Hn 3%nat)|]. split; [exact He|].
  exists h'. by split.
Defined.

(** ** The cycle of clock states *)

Lemma core_ofCore (s : TrafficSignal) : core (ofCore (core s)) = core s.
Proof. reflexivity. Qed.

Lemma onCycle_cycleCores (s : TrafficSignal) : onCycle s -> core s ∈ cycleCores.
Proof.
  intros ([Hlo Hhi] & Hk & Hw). unfold cycleCores, core.
  apply list_elem_of_bind. exists (currentState s).
  split; [|destruct (currentState s); repeat constructor].
  apply list_elem_of_bind. exists (completedCycles s). split.
  - apply list_elem_of_bind. exists (Z.to_nat (countdown s)). split.
    + rewrite Z2Nat.id by lia. constructor.
    + apply elem_of_seq. lia.
  - case_bool_decide as Hp; [rewrite (Hw Hp) | destruct Hk as [-> | ->]];
      repeat constructor.
Qed.

(** A property of the clock part that holds of every listed state holds
    of every state on the cycle. *)
Lemma onCycle_check (P : TrafficSignal -> bool) :
  clockOnly P ->
  forallb (fun x => P (ofCore x)) cycleCores = true ->
  forall s, onCycle s -> P s = true.
Proof.
  intros HP Hall s Hs.
  rewrite <- (HP _ _ (core_ofCore s)).
  rewrite forallb_forall in Hall. apply (Hall (core s)).
  apply list_elem_of_In. by apply onCycle_cycleCores.
Qed.

Lemma seeded_onCycle (i : nat) (s : TrafficSignal) : seeded i s -> onCycle s.
Proof.
  intros [Hst Hc _ _ Hk]. unfold onCycle. rewrite Hst, Hc, Hk.
  pose proof (getInitialCountdown_bounds (getInitialState i) i).
  pose proof (minTimeOf_bounds (getInitialState i)).
  split; [lia|]. split; [by left | done].
Qed.

Lemma updateSignal_onCycle (s : TrafficSignal) : onCycle s -> onCycle (updateSignal s).
Proof.
  intros ([Hlo Hhi] & Hk & Hw). unfold onCycle. tick_cases s.
  - destruct (currentState s) eqn:Hst; cbn [baseCountdowns] in *.
    + split; [simpl; lia | done].
    + destruct (Z.leb_spec 2 (completedCycles s + 1)); simpl;
        (split; [lia|]; split; [lia | done || lia]).
    + split; [simpl; lia | done].
    + split; [simpl; lia|]. split; [left; by apply Hw | done].
  - simpl. split; [lia | done].
Qed.

Lemma reachable_onCycle (s : TrafficSignal) : reachable s -> onCycle s.
Proof.
  revert s. apply reachable_invariant.
  - apply seeded_onCycle.
  - apply updateSignal_onCycle.
Qed.

(** The ticked demo signals are reachable; used to instantiate the
    theorems below. *)
Lemma reachable_ticks_demo (la ln : float) (i n : nat) :
  (i < 4)%nat -> reachable (ticks n (demoSignal la ln i)).
Proof.
  intros Hi. induction n as [|n IH]; [|by apply reachable_tick].
  apply (reachable_demo la ln), elem_of_createDemoSignals. by exists i.
Qed.

(** X1.  In every reachable state the countdown lies between 1 and the
    duration of the current phase, [completedCycles] is 0 or 1, and it is
    0 throughout a Walk phase. *)
Theorem reachable_clock_state (s : TrafficSignal) :
  reachable s ->
  1 <= countdown s <= baseCountdowns (currentState s)
  /\ (completedCycles s = 0 \/ completedCycles s = 1)
  /\ (currentState s = walk -> completedCycles s = 0).
Proof. apply reachable_onCycle. Qed.

Lemma reachable_clock_state_witness :
  let s := ticks 100 (demoSignal 28.7041 77.1025 1) in
  reachable s
  /\ 1 <= countdown s <= baseCountdowns (currentState s)
  /\ (completedCycles s = 0 \/ completedCycles s = 1).
Proof.
  cbv zeta.
  pose proof (reachable_ticks_demo 28.7041 77.1025 1 100 ltac:(lia)) as R.
  destruct (reachable_clock_state _ R) as (Hc & Hk & _).
  exact (conj R (conj Hc Hk)).
Defined.

(** ** Period of the clock *)

Lemma ticks_add (m n : nat) (s : TrafficSignal) :
  ticks (m + n) s = ticks m (ticks n s).
Proof. unfold ticks. apply Nat.iter_add. Qed.

Lemma ticks_fields (n : nat) (s : TrafficSignal) :
  id (ticks n s) = id s /\ lat (ticks n s) = lat s /\ lng (ticks n s) = lng s
  /\ name (ticks n s) = name s /\ cycleCount (ticks n s) = cycleCount s.
Proof.
  induction n as [|n (Hi & Hla & Hln & Hn & Hc)]; [done|].
  rewrite ticks_S, cycleCount_updateSignal.
  destruct (updateSignal_frame (ticks n s)) as (-> & -> & -> & ->). done.
Qed.

Lemma reachable_pedestrianWalk (s : TrafficSignal) :
  reachable s -> pedestrianWalk s = bool_decide (currentState s = walk).
Proof.
  revert s. apply reachable_invariant.
  - intros i s [Hst _ -> _ _]. rewrite Hst.
    by destruct (getInitialState_cases i) as [-> | [-> | ->]].
  - intros s _. apply pedestrianWalk_updateSignal.
Qed.

(** Signals are equal when their fields are. *)
Lemma signal_eq (a b : TrafficSignal) :
  id a = id b -> lat a = lat b -> lng a = lng b -> name a = name b ->
  cycleCount a = cycleCount b -> pedestrianWalk a = pedestrianWalk b ->
  core a = core b -> a = b.
Proof.
  destruct a, b. unfold core. simpl. by intros -> -> -> -> -> -> [= -> -> ->].
Qed.

(** The trace from [cycleStart] visits every clock state of the cycle,
    visits none twice, and closes after 182 ticks. *)
Lemma cycleTrace_covers :
  forallb (fun x => bool_decide (core (ofCore x) ∈ cycleTrace)) cycleCores = true.
Proof. vm_compute. reflexivity. Qed.

Lemma cycleTrace_NoDup : NoDup cycleTrace.
Proof. apply (bool_decide_unpack _). by vm_compute. Qed.

Lemma cycleStart_returns : core (ticks 182 cycleStart) = core cycleStart.
Proof. vm_compute. reflexivity. Qed.

Lemma cycleTrace_lookup (i : nat) :
  (i < 182)%nat -> cycleTrace !! i = Some (core (ticks i cycleStart)).
Proof.
  intros Hi. unfold cycleTrace.
  by rewrite list_lookup_fmap, lookup_seq_lt.
Qed.

Lemma onCycle_position (s : TrafficSignal) :
  onCycle s -> exists i, (i < 182)%nat /\ core s = core (ticks i cycleStart).
Proof.
  intros Hs.
  assert (CO : clockOnly (fun t => bool_decide (core t ∈ cycleTrace))).
  { intros a b E. by rewrite E. }
  pose proof (onCycle_check _ CO cycleTrace_covers s Hs) as H. cbv beta in H.
  apply bool_decide_eq_true_1, list_elem_of_fmap in H.
  destruct H as (i & E & Hi%elem_of_seq). exists i. split; [lia | exact E].
Qed.

Lemma cycleStart_wraps (n : nat) :
  core (ticks (n + 182) cycleStart) = core (ticks n cycleStart).
Proof. rewrite ticks_add. apply core_ticks, cycleStart_returns. Qed.

Lemma onCycle_returns (s : TrafficSignal) : onCycle s -> core (ticks 182 s) = core s.
Proof.
  intros (i & Hi & E)%onCycle_position.
  rewrite (core_ticks 182 _ _ E), <- ticks_add, (Nat.add_comm 182 i).
  by rewrite cycleStart_wraps.
Qed.

Lemma onCycle_noEarlierReturn (s : TrafficSignal) (k : nat) :
  onCycle s -> (0 < k < 182)%nat -> core (ticks k s) ≠ core s.
Proof.
  intros (i & Hi & E)%onCycle_position Hk Heq.
  rewrite (core_ticks k _ _ E), <- ticks_add, E in Heq.
  destruct (Nat.lt_ge_cases (k + i) 182) as [Hlt | Hge].
  - pose proof (NoDup_lookup _ _ _ _ cycleTrace_NoDup
                  (cycleTrace_lookup _ Hlt)
                  (eq_trans (cycleTrace_lookup _ Hi) (f_equal Some (eq_sym Heq)))).
    lia.
  - replace (k + i)%nat with ((k + i - 182) + 182)%nat in Heq by lia.
    rewrite cycleStart_wraps in Heq.
    assert (Hlt : (k + i - 182 < 182)%nat) by lia.
    pose proof (NoDup_lookup _ _ _ _ cycleTrace_NoDup
                  (cycleTrace_lookup _ Hlt)
                  (eq_trans (cycleTrace_lookup _ Hi) (f_equal Some (eq_sym Heq)))).
    lia.
Qed.

Lemma reachable_ticks (n : nat) (s : TrafficSignal) :
  reachable s -> reachable (ticks n s).
Proof. intros R. induction n as [|n IH]; [done | by apply reachable_tick]. Qed.

(** X2.  The simulation is periodic: 182 ticks (two Red-Green-Yellow
    cycles of 81 and one Walk of 20) bring every reachable signal back to
    the very same record, and no smaller positive number of ticks does. *)
Theorem clock_period (s : TrafficSignal) :
  reachable s ->
  ticks 182 s = s
  /\ (forall k, (0 < k < 182)%nat -> ticks k s ≠ s).
Proof.
  intros R. pose proof (reachable_onCycle s R) as Hs. split.
  - pose proof (onCycle_returns s Hs) as Hc.
    destruct (ticks_fields 182 s) as (Hi & Hla & Hln & Hn & Hcc).
    apply signal_eq; [exact Hi | exact Hla | exact Hln | exact Hn | exact Hcc | | exact Hc].
    rewrite (reachable_pedestrianWalk s R).
    rewrite (reachable_pedestrianWalk _ (reachable_ticks 182 s R)).
    by rewrite (currentState_core _ _ Hc).
  - intros k Hk Heq. apply (onCycle_noEarlierReturn s k Hs Hk). by rewrite Heq.
Qed.

Lemma clock_period_witness :
  let s := ticks 7 (demoSignal 28.7041 77.1025 3) in
  reachable s /\ ticks 182 s = s /\ ticks 91 s ≠ s.
Proof.
  cbv zeta.
  pose proof (reachable_ticks_demo 28.7041 77.1025 3 7 ltac:(lia)) as R.
  destruct (clock_period _ R) as (Hp & Hk).
  exact (conj R (conj Hp (Hk 91%nat ltac:(lia)))).
Defined.

(** ** Time spent in each phase *)

Lemma inPhase_clockOnly (p : SignalState) : clockOnly (inPhase p).
Proof. intros a b H. unfold inPhase. by rewrite (currentState_core _ _ H). Qed.

Lemma ticks_updateSignal (n : nat) (s : TrafficSignal) :
  ticks n (updateSignal s) = ticks (S n) s.
Proof. by rewrite <- Nat.add_1_r, ticks_add. Qed.

Lemma countTicks_S p (n : nat) (s : TrafficSignal) :
  countTicks p (S n) s = (countTicks p n s + (if p (ticks n s) then 1 else 0))%nat.
Proof. reflexivity. Qed.

(** Counting from the second tick on. *)
Lemma countTicks_shift p (n : nat) (s : TrafficSignal) :
  countTicks p (S n) s
  = ((if p s then 1 else 0) + countTicks p n (updateSignal s))%nat.
Proof.
  induction n as [|n IH]; [rewrite countTicks_S; simpl; lia|].
  rewrite countTicks_S, IH, (countTicks_S p n (updateSignal s)), ticks_updateSignal.
  lia.
Qed.

(** A window of 182 ticks holds as much of each phase wherever on the
    cycle it begins. *)
Lemma phaseTicks_tick (p : SignalState) (s : TrafficSignal) :
  onCycle s -> phaseTicks p 182 (updateSignal s) = phaseTicks p 182 s.
Proof.
  intros Hs. unfold phaseTicks.
  pose proof (countTicks_shift (inPhase p) 182 s) as Hshift.
  rewrite countTicks_S in Hshift.
  rewrite (inPhase_clockOnly p _ _ (onCycle_returns s Hs)) in Hshift.
  lia.
Qed.

Lemma ticks_onCycle (n : nat) (s : TrafficSignal) : onCycle s -> onCycle (ticks n s).
Proof.
  intros Hs. induction n as [|n IH]; [done|].
  rewrite ticks_S. by apply updateSignal_onCycle.
Qed.

Lemma phaseTicks_ticks (p : SignalState) (n : nat) (s : TrafficSignal) :
  onCycle s -> phaseTicks p 182 (ticks n s) = phaseTicks p 182 s.
Proof.
  intros Hs. induction n as [|n IH]; [done|].
  rewrite ticks_S, phaseTicks_tick; [exact IH | by apply ticks_onCycle].
Qed.

Lemma cycleStart_onCycle : onCycle cycleStart.
Proof. unfold onCycle, cycleStart. simpl. split; [lia|]. split; [by left | done]. Qed.

Lemma cycleStart_share :
  phaseTicks red 182 cycleStart = 90%nat
  /\ phaseTicks green 182 cycleStart = 60%nat
  /\ phaseTicks yellow 182 cycleStart = 12%nat
  /\ phaseTicks walk 182 cycleStart = 20%nat.
Proof. vm_compute. repeat split. Qed.

Lemma onCycle_share (p : SignalState) (s : TrafficSignal) :
  onCycle s -> phaseTicks p 182 s = phaseTicks p 182 cycleStart.
Proof.
  intros Hs. destruct (onCycle_position s Hs) as (i & _ & E).
  unfold phaseTicks at 1.
  rewrite (countTicks_core _ 182 _ _ (inPhase_clockOnly p) E).
  apply (phaseTicks_ticks p i), cycleStart_onCycle.
Qed.

(** X3.  Out of any 182 consecutive ticks of a reachable signal, exactly
    90 are spent in Red, 60 in Green, 12 in Yellow and 20 in Walk. *)
Theorem phase_time_share (s : TrafficSignal) :
  reachable s ->
  phaseTicks red 182 s = 90%nat
  /\ phaseTicks green 182 s = 60%nat
  /\ phaseTicks yellow 182 s = 12%nat
  /\ phaseTicks walk 182 s = 20%nat.
Proof.
  intros R. pose proof (reachable_onCycle s R) as Hs.
  rewrite !(onCycle_share _ s Hs). exact cycleStart_share.
Qed.

Lemma phase_time_share_witness :
  let s := ticks 33 (demoSignal 28.7041 77.1025 0) in
  reachable s /\ phaseTicks walk 182 s = 20%nat /\ phaseTicks red 182 s = 90%nat.
Proof.
  cbv zeta.
  pose proof (reachable_ticks_demo 28.7041 77.1025 0 33 ltac:(lia)) as R.
  destruct (phase_time_share _ R) as (Hr & _ & _ & Hw).
  exact (conj R (conj Hw Hr)).
Defined.

(** ** Ticks of a signal set *)

(** X4.  Signals do not interact: [n] ticks of a signal set are [n] ticks
    of each of its signals, so ticking a concatenation ticks the parts,
    and the empty set stays empty. *)
Theorem ticks_of_set (n : nat) (prev more : list TrafficSignal) :
  Nat.iter n updateSignalStates prev = ticks n <$> prev
  /\ Nat.iter n updateSignalStates (prev ++ more)
     = Nat.iter n updateSignalStates prev ++ Nat.iter n updateSignalStates more
  /\ Nat.iter n updateSignalStates [] = [].
Proof.
  assert (H : forall l, Nat.iter n updateSignalStates l = ticks n <$> l).
  { intros l. induction n as [|n IH]; simpl.
    - by rewrite list_fmap_id.
    - rewrite IH. unfold updateSignalStates. rewrite <- list_fmap_compose.
      by apply list_fmap_ext. }
  split; [apply H|]. split; [by rewrite !H, fmap_app | by rewrite H].
Qed.

(** ** Seeding at any index *)

(** X5.  For every batch index the seeded phase is Red, Green or Yellow,
    repeating with period 3, and for every phase and index the seeded
    countdown lies between [max(5, D/5)] and the duration [D] of the
    phase. *)
Theorem seeding_bounds (state : SignalState) (i : nat) :
  getInitialState i ≠ walk
  /\ getInitialState (i + 3) = getInitialState i
  /\ Z.max 5 (baseCountdowns state / 5) <= getInitialCountdown state i
     <= baseCountdowns state.
Proof.
  split; [apply getInitialState_not_walk|]. split.
  - unfold getInitialState.
    replace ((i + 3) mod 3)%nat with (i mod 3)%nat; [done|].
    rewrite <- (Nat.Div0.add_mod_idemp_r i 3 3). by rewrite Nat.add_0_r.
  - rewrite <- minTimeOf_baseCountdowns. apply getInitialCountdown_bounds.
Qed.

(** ** The scheduler over all event sequences *)

Lemma idle_quiet (h : positive) (o : Overlay) : idle h o -> quiet o.
Proof.
  intros [Hs Hr Ht Hn Hd Hc]. split; try done.
  intros h'. rewrite Hr. by intros [= <-].
Qed.

Lemma commit_mounted_quiet : quiet (commit mounted).
Proof. by split. Qed.

(** Installing a set on a quiet scheduler: nothing happens for the empty
    set, a new interval is set for a non-empty one. *)
Lemma setTrafficSignals_quiet (o : Overlay) updater :
  quiet o ->
  let o' := setTrafficSignals updater o in
  trafficSignals o' = updater (trafficSignals o)
  /\ (updater (trafficSignals o) = [] -> quiet o')
  /\ (updater (trafficSignals o) ≠ [] -> running (nextTimer o) o').
Proof.
  intros [Hs Ht Hn Hd Hc]. cbv zeta.
  unfold setTrafficSignals, commit, timerDepsOf. simpl.
  rewrite Hd, Hc.
  destruct (updater (trafficSignals o)) as [|s l] eqn:E; simpl.
  - split; [done|]. split; [|done]. intros _. by split.
  - unfold timerEffect, clearCurrentInterval. simpl.
    destruct (intervalRef o) as [h|] eqn:Hr; simpl;
      (split; [done|]; split; [done|]; intros _; split; simpl; try done; [|lia]).
    + rewrite Ht, empty_difference_L. apply (right_id_L ∅ (∪)).
    + rewrite Ht. apply (right_id_L ∅ (∪)).
Qed.

Lemma setTrafficSignals_settled (o : Overlay) updater :
  settled o -> settled (setTrafficSignals updater o).
Proof.
  intros [[h R] | Q].
  - destruct (decide (updater (trafficSignals o) = [])) as [E | E].
    + right. pose proof (cadence_stops_on_empty h o R) as I.
      assert (Heq : setTrafficSignals updater o = replaceSignals [] o).
      { unfold replaceSignals, setTrafficSignals. by rewrite E. }
      rewrite Heq. by apply (idle_quiet h).
    + left. exists h. by apply setTrafficSignals_running.
  - destruct (setTrafficSignals_quiet o updater Q) as (_ & H0 & H1).
    destruct (decide (updater (trafficSignals o) = [])) as [E | E].
    + right. by apply H0.
    + left. eexists. by apply H1.
Qed.

Lemma locationEffect_settled (cleanup map : bool)
    (currentLocation : option (float * float)) (o : Overlay) :
  settled o -> settled (locationEffect cleanup map currentLocation o).
Proof.
  intros H. unfold locationEffect, batched.
  destruct cleanup, map, currentLocation as [location|]; simpl;
    first [exact H | by apply setTrafficSignals_settled].
Qed.

Lemma handle_settled (o : Overlay) (e : OverlayEvent) :
  settled o -> settled (handle o e).
Proof.
  intros H. destruct e as [signals | cleanup map currentLocation | signalData | h]; simpl.
  - by apply setTrafficSignals_settled.
  - by apply locationEffect_settled.
  - unfold enhanceAllSignals. destruct (0 <? _)%nat; [|done].
    by apply setTrafficSignals_settled.
  - unfold fire. destruct (decide _); [|done].
    by apply setTrafficSignals_settled.
Qed.

Lemma run_settled (events : list OverlayEvent) : settled (run events).
Proof.
  unfold run. induction events as [|e events IH] using rev_ind.
  - right. apply commit_mounted_quiet.
  - rewrite foldl_app. simpl. by apply handle_settled.
Qed.

(** X6.  Whatever signal sets are installed, however often the location
    effect runs again (with or without a location), whatever detection
    rounds deliver and whichever intervals come due, in any order, the
    overlay never has two live intervals; an interval is live exactly
    when the signal set is not empty, and it is the one the ref holds. *)
Theorem one_interval_at_most (events : list OverlayEvent) :
  let o := run events in
  (forall h h', h ∈ timers o -> h' ∈ timers o -> h = h')
  /\ (timers o ≠ ∅ <-> trafficSignals o ≠ [])
  /\ (forall h, h ∈ timers o -> intervalRef o = Some h).
Proof.
  cbv zeta. destruct (run_settled events) as [[h [Hs Hr Ht Hn Hd Hc]] | [Hs Ht Hn Hd Hc]];
    rewrite Ht.
  - split; [|split].
    + intros a b Ha%elem_of_singleton Hb%elem_of_singleton. congruence.
    + split; [done|]. intros _ E.
      assert (Hin : h ∈ ({[h]} : gset positive)) by by apply elem_of_singleton.
      rewrite E in Hin. by apply not_elem_of_empty in Hin.
    + intros a Ha%elem_of_singleton. congruence.
  - split; [|split].
    + intros a b Ha. by apply not_elem_of_empty in Ha.
    + by rewrite Hs.
    + intros a Ha. by apply not_elem_of_empty in Ha.
Qed.

(** X7.  [clearSignalsFromMap] runs only as the cleanup of the location
    effect, in one batch with the body that follows it.  On a running
    overlay: when the effect runs again without a map or without a
    location, the clear is the only update, the render sees the empty set
    and the interval is cleared, and no interval coming due afterwards
    (the cleared one included) changes the overlay.  When it runs again
    with a map and a location, the clear is overwritten in the batch by
    the demo signals of that location: the interval is neither cleared
    nor set anew and goes on ticking, now the new set.  And a run
    without a cleanup, a map or a location changes nothing. *)
Theorem clear_stops_ticking (h : positive) (o : Overlay) (map : bool)
    (currentLocation : option (float * float)) (due : list positive) :
  running h o ->
  let o' := locationEffect true map currentLocation o in
  (map = false \/ currentLocation = None ->
     trafficSignals o' = [] /\ timers o' = ∅
     /\ foldl (fun o h => fire h o) o' due = o'
     /\ locationEffect false map currentLocation o = o)
  /\ (forall location, map = true -> currentLocation = Some location ->
        running h o'
        /\ timers o' = timers o
        /\ intervalRef o' = intervalRef o
        /\ trafficSignals o' = createDemoSignals location.1 location.2
        /\ trafficSignals (fire h o')
           = updateSignalStates (createDemoSignals location.1 location.2)).
Proof.
  intros R. cbv zeta. split.
  - intros Hgone.
    assert (E : locationEffect true map currentLocation o = replaceSignals [] o
                /\ locationEffect false map currentLocation o = o).
    { destruct Hgone as [-> | ->]; [done|]. by destruct map. }
    destruct E as [-> ->].
    pose proof (cadence_stops_on_empty h o R) as I.
    split; [apply I|]. split; [apply I|]. split; [by apply (fire_idle h) | done].
  - intros [la ln] -> ->.
    assert (Hne : createDemoSignals la ln ≠ []) by done.
    change (locationEffect true true (Some (la, ln)) o)
      with (replaceSignals (createDemoSignals la ln) o).
    destruct (setTrafficSignals_running h o (fun _ => createDemoSignals la ln) R Hne)
      as [E R'].
    fold (replaceSignals (createDemoSignals la ln) o) in E, R'.
    split; [exact R'|]. rewrite E at 1 2 3. simpl.
    split; [done|]. split; [done|]. split; [done|].
    destruct (fires_running h _ 1 R') as (_ & Sn & _).
    simpl in Sn. rewrite Sn, E. done.
Qed.

Lemma clear_stops_ticking_witness :
  let o := started 28.7041 77.1025 in
  let gone := locationEffect true true None o in
  let moved := locationEffect true true (Some (12.9716, 77.5946)%float) o in
  running 1 o
  /\ timers gone = ∅
  /\ foldl (fun o h => fire h o) gone [1; 1; 2]%positive = gone
  /\ timers moved = timers o
  /\ trafficSignals moved = createDemoSignals 12.9716 77.5946.
Proof.
  cbv zeta. pose proof (started_running 28.7041 77.1025) as R.
  destruct (clear_stops_ticking 1 _ true None [1; 1; 2]%positive R) as (Hgone & _).
  destruct (Hgone (or_intror eq_refl)) as (_ & Ht & Hf & _).
  destruct (clear_stops_ticking 1 _ true (Some (12.9716, 77.5946)%float) [] R)
    as (_ & Hmoved).
  destruct (Hmoved _ eq_refl eq_refl) as (_ & Hm & _ & Hs & _).
  exact (conj R (conj Ht (conj Hf (conj Hm Hs)))).
Defined.

(** X8.  A detection round on a running overlay never leaves it without
    signals and never touches the timer: when no candidate survives the
    overlay is unchanged (the installed signals keep ticking), otherwise
    the adapted candidates become the signal set. *)
Theorem detection_round (h : positive) (o : Overlay) (signalData : list RawCandidate) :
  running h o ->
  let o' := enhanceAllSignals signalData o in
  running h o'
  /\ timers o' = timers o
  /\ (enhancedSignals signalData = [] -> o' = o)
  /\ (enhancedSignals signalData ≠ [] -> trafficSignals o' = enhancedSignals signalData).
Proof.
  intros R. cbv zeta.
  destruct (enhanceAllSignals_running h o signalData R) as [R' Ht].
  split; [done|]. split; [done|]. unfold enhanceAllSignals.
  destruct (enhancedSignals signalData) as [|s l] eqn:E; simpl; [done|].
  split; [done|]. intros _.
  destruct (setTrafficSignals_running h o (fun _ => s :: l) R) as [Heq _]; [done|].
  unfold replaceSignals. by rewrite Heq.
Qed.

Lemma detection_round_witness :
  let o := started 28.7041 77.1025 in
  running 1 o
  /\ enhanceAllSignals [onEquator] o = o
  /\ trafficSignals (enhanceAllSignals [onEquator; inDelhi] o)
     = enhancedSignals [onEquator; inDelhi].
Proof.
  cbv zeta. pose proof (started_running 28.7041 77.1025) as R.
  split; [exact R|]. split.
  - destruct (detection_round 1 _ [onEquator] R) as (_ & _ & H & _).
    by apply H.
  - destruct (detection_round 1 _ [onEquator; inDelhi] R) as (_ & _ & _ & H).
    by apply H.
Defined.

(** ** What the adapter produces *)

Lemma truthy_str_nonempty (s : string) : Js.truthy_str s = true -> s ≠ "".
Proof. by destruct s. Qed.

Lemma or_default_nonempty (a : option string) (d : string) :
  d ≠ "" -> default d (Js.or Js.truthy_str a None) ≠ "".
Proof.
  intros Hd. unfold Js.or.
  destruct a as [s|]; simpl; [|done].
  destruct (Js.truthy_str s) eqn:E; simpl; [|done].
  by apply truthy_str_nonempty.
Qed.

Lemma or_source (a b d : option float) (x : float) :
  Js.or Js.truthy (Js.or Js.truthy a b) d = Some x -> Some x ∈ [a; b; d].
Proof.
  unfold Js.or.
  destruct (Js.truthy_opt Js.truthy a) eqn:Ea; simpl.
  - rewrite Ea. intros ->. repeat constructor.
  - destruct (Js.truthy_opt Js.truthy b) eqn:Eb; simpl; intros ->; repeat constructor.
Qed.

Lemma enhanceSignal_Some (i : nat) (c : RawCandidate) (s : TrafficSignal) :
  enhanceSignal i c = Some s ->
  keptPosition c = Some (lat s, lng s)
  /\ Js.truthy (lat s) = true /\ Js.truthy (lng s) = true
  /\ id s = default ("global_signal_" +:+ Js.show i) (Js.or Js.truthy_str (raw_id c) None)
  /\ id s ≠ "" /\ name s ≠ "".
Proof.
  unfold enhanceSignal, keptPosition.
  destruct (resolved_lat c) as [la|]; [|done].
  destruct (resolved_lng c) as [ln|]; [|done].
  destruct (Js.truthy la) eqn:Ela, (Js.truthy ln) eqn:Eln; try done.
  simpl. intros [= <-]. simpl. repeat split; try done.
  - by apply or_default_nonempty.
  - by apply or_default_nonempty.
Qed.

(** X9.  Every signal the adapter produces comes from a candidate of the
    batch, carries a latitude and a longitude stored in that candidate,
    neither of them 0 or NaN, has a non-empty [id] and [name], and is
    seeded by the candidate's index in the raw batch. *)
Theorem adapted_signal_origin (signalData : list RawCandidate) (s : TrafficSignal) :
  s ∈ enhancedSignals signalData ->
  exists i c,
    signalData !! i = Some c
    /\ Some (lat s) ∈ lat_sources c /\ Some (lng s) ∈ lng_sources c
    /\ Js.truthy (lat s) = true /\ Js.truthy (lng s) = true
    /\ id s ≠ "" /\ name s ≠ ""
    /\ seeded i s.
Proof.
  intros (i & c & Hc & Hs)%elem_of_enhancedSignals. exists i, c.
  split; [done|].
  destruct (enhanceSignal_Some i c s Hs) as (Hp & Hla & Hln & _ & Hid & Hn).
  unfold keptPosition in Hp.
  destruct (resolved_lat c) as [la|] eqn:Ela; [|done].
  destruct (resolved_lng c) as [ln|] eqn:Eln; [|done].
  destruct (Js.truthy la && Js.truthy ln); [|done].
  injection Hp as -> ->.
  repeat split; try done.
  - by apply or_source.
  - by apply or_source.
  - by apply (enhanceSignal_seeded i c).
  - by apply (enhanceSignal_seeded i c).
  - by apply (enhanceSignal_seeded i c).
  - by apply (enhanceSignal_seeded i c).
  - by apply (enhanceSignal_seeded i c).
Qed.

Lemma adapted_signal_origin_witness :
  let signalData := [onEquator; inDelhi] in
  let s := default (signalAt red 0 0) (head (enhancedSignals signalData)) in
  s ∈ enhancedSignals signalData
  /\ exists i c,
       signalData !! i = Some c
       /\ Some (lat s) ∈ lat_sources c /\ Some (lng s) ∈ lng_sources c
       /\ Js.truthy (lat s) = true /\ Js.truthy (lng s) = true
       /\ id s ≠ "" /\ name s ≠ ""
       /\ seeded i s.
Proof.
  cbv zeta.
  assert (Hin : default (signalAt red 0 0) (head (enhancedSignals [onEquator; inDelhi]))
                ∈ enhancedSignals [onEquator; inDelhi]).
  { vm_compute. constructor. }
  split; [exact Hin | exact (adapted_signal_origin _ _ Hin)].
Defined.

(** The adapter with the raw indices shifted by [k]; [k = 0] is the
    adapter itself. *)
Lemma enhancedSignals_cons (k : nat) (c : RawCandidate) (l : list RawCandidate) :
  omap (fun x => x) (imap (fun i => enhanceSignal (k + i)) (c :: l))
  = match enhanceSignal k c with
    | Some s => s :: omap (fun x => x) (imap (fun i => enhanceSignal (S k + i)) l)
    | None => omap (fun x => x) (imap (fun i => enhanceSignal (S k + i)) l)
    end.
Proof.
  rewrite imap_cons. cbn [omap list_omap]. rewrite Nat.add_0_r.
  assert (E : imap ((fun i => enhanceSignal (k + i)) ∘ S) l
              = imap (fun i => enhanceSignal (S k + i)) l).
  { apply imap_ext. intros i x _. simpl. f_equal. lia. }
  by rewrite E.
Qed.

Lemma keptPosition_enhanceSignal (i : nat) (c : RawCandidate) :
  (fun s => (lat s, lng s)) <$> enhanceSignal i c = keptPosition c.
Proof.
  unfold enhanceSignal, keptPosition.
  destruct (resolved_lat c) as [la|]; [|done].
  destruct (resolved_lng c) as [ln|]; [|done].
  by destruct (Js.truthy la && Js.truthy ln).
Qed.

Lemma positions_shifted (k : nat) (signalData : list RawCandidate) :
  (fun s => (lat s, lng s))
    <$> omap (fun x => x) (imap (fun i => enhanceSignal (k + i)) signalData)
  = omap keptPosition signalData.
Proof.
  revert k. induction signalData as [|c l IH]; intros k; [done|].
  rewrite enhancedSignals_cons. cbn [omap list_omap].
  pose proof (keptPosition_enhanceSignal k c) as Hk.
  destruct (enhanceSignal k c) as [s|]; simpl in Hk; rewrite <- Hk.
  - by rewrite fmap_cons, IH.
  - by rewrite IH.
Qed.

(** X10.  The adapter keeps the order of the batch and drops nothing but
    the candidates it cannot place: the positions of the produced signals
    are the positions of the kept candidates, in the order of the raw
    list, so there are never more signals than candidates. *)
Theorem adapted_positions (signalData : list RawCandidate) :
  (fun s => (lat s, lng s)) <$> enhancedSignals signalData
  = omap keptPosition signalData
  /\ (length (enhancedSignals signalData) <= length signalData)%nat.
Proof.
  assert (H : (fun s => (lat s, lng s)) <$> enhancedSignals signalData
              = omap keptPosition signalData) by apply (positions_shifted 0).
  split; [exact H|].
  rewrite <- (length_fmap (fun s => (lat s, lng s))), H.
  clear H. induction signalData as [|c l IH]; [done|].
  cbn [omap list_omap]. destruct (keptPosition c); simpl; lia.
Qed.

(** ** Identifiers *)

Lemma show_inj (m n : nat) : Js.show m = Js.show n -> m = n.
Proof.
  unfold Js.show. intros H. apply DecimalNat.Unsigned.to_uint_inj.
  apply (f_equal NilEmpty.uint_of_string) in H.
  rewrite !NilEmpty.usu in H. congruence.
Qed.

Lemma global_signal_inj (m n : nat) :
  "global_signal_" +:+ Js.show m = "global_signal_" +:+ Js.show n -> m = n.
Proof. simpl. intros [= H]. by apply show_inj. Qed.

Lemma anonymous_ids (k : nat) (signalData : list RawCandidate) :
  Forall anonymous signalData ->
  let ids := id <$> omap (fun x => x) (imap (fun i => enhanceSignal (k + i)) signalData) in
  NoDup ids
  /\ (forall x, x ∈ ids -> exists j, (k <= j)%nat /\ x = "global_signal_" +:+ Js.show j).
Proof.
  intros Hall. revert k. induction Hall as [|c l Hc _ IH]; intros k.
  - split; [constructor | by intros x Hx%elem_of_nil].
  - cbv zeta. rewrite enhancedSignals_cons.
    destruct (IH (S k)) as [Hnd Hform].
    destruct (enhanceSignal k c) as [s|] eqn:E.
    + destruct (enhanceSignal_Some k c s E) as (_ & _ & _ & Hid & _).
      rewrite Hc in Hid. simpl in Hid.
      rewrite fmap_cons. split.
      * constructor; [|done]. intros (j & Hj & Hx)%Hform.
        rewrite Hid in Hx. apply global_signal_inj in Hx. lia.
      * intros x [-> | Hx]%elem_of_cons.
        -- exists k. by split.
        -- destruct (Hform x Hx) as (j & Hj & ->). exists j. split; [lia | done].
    + split; [done|]. intros x Hx.
      destruct (Hform x Hx) as (j & Hj & ->). exists j. split; [lia | done].
Qed.

Lemma ids_ticked (n : nat) (l : list TrafficSignal) :
  id <$> Nat.iter n updateSignalStates l = id <$> l.
Proof.
  induction n as [|n IH]; [done|].
  simpl. unfold updateSignalStates at 1. rewrite <- list_fmap_compose, <- IH.
  apply list_fmap_ext. intros i s _. simpl. apply updateSignal_frame.
Qed.

(** X11.  Signal identifiers stay pairwise distinct, at creation and after
    any number of ticks of the set: always for the demo signals, and for
    adapted signals whenever no candidate of the batch brings an [id] of
    its own (the identifiers are then [global_signal_i] for the raw
    indices [i] of the kept candidates). *)
Theorem distinct_ids :
  (forall la ln n,
      NoDup (id <$> Nat.iter n updateSignalStates (createDemoSignals la ln)))
  /\ (forall signalData n,
        Forall anonymous signalData ->
        NoDup (id <$> Nat.iter n updateSignalStates (enhancedSignals signalData))).
Proof.
  split.
  - intros la ln n. rewrite ids_ticked.
    change (id <$> createDemoSignals la ln)
      with ["demo_signal_1"; "demo_signal_2"; "demo_signal_3"; "demo_signal_4"].
    apply (bool_decide_unpack _). by vm_compute.
  - intros d n Hd. rewrite ids_ticked.
    apply (anonymous_ids 0 d Hd).
Qed.

Lemma distinct_ids_witness :
  Forall anonymous [inDelhi; inDelhi; inDelhi]
  /\ NoDup (id <$> Nat.iter 50 updateSignalStates
                     (enhancedSignals [inDelhi; inDelhi; inDelhi])).
Proof.
  assert (H : Forall anonymous [inDelhi; inDelhi; inDelhi])
    by (repeat constructor).
  split; [exact H|].
  destruct distinct_ids as [_ Hd]. exact (Hd _ 50%nat H).
Defined.

(** Candidates that bring the same [id] yield signals with the same
    [id]. *)
Example shared_id_is_kept :
  id <$> enhancedSignals
           [ {| raw_id := Some "poi"; raw_lat := Some 12.9%float; raw_lng := Some 77.6%float;
                raw_name := None; raw_geometry := None; raw_latlng := None;
                raw_properties := None |};
             {| raw_id := Some "poi"; raw_lat := Some 13.1%float; raw_lng := Some 77.5%float;
                raw_name := None; raw_geometry := None; raw_latlng := None;
                raw_properties := None |} ]
  = ["poi"; "poi"].
Proof. vm_compute. reflexivity. Qed.

(** ** Polyline decoding *)

Section PolylineFacts.
Import Polyline.

Lemma wrap32_small (z : Z) : - 2 ^ 31 <= z < 2 ^ 31 -> wrap32 z = z.
Proof. intros H. unfold wrap32. rewrite Z.mod_small; lia. Qed.

Lemma digit_range (c : Z) : 0 <= digit c < 32.
Proof.
  unfold digit. change 31 with (Z.ones 5).
  rewrite Z.land_ones by lia. apply Z.mod_pos_bound. lia.
Qed.

(** A group of five bits shifted into place, while it fits 32 bits. *)
Lemma shl32_digit (d k : Z) :
  0 <= d < 32 -> 0 <= k <= 5 -> shl32 d (5 * k) = d * 2 ^ (5 * k).
Proof.
  intros Hd Hk. unfold shl32.
  rewrite Z.mod_small by lia. rewrite Z.shiftl_mul_pow2 by lia.
  apply wrap32_small.
  assert (2 ^ (5 * k) <= 2 ^ 25) by (apply Z.pow_le_mono_r; lia).
  assert (0 < 2 ^ (5 * k)) by (apply Z.pow_pos_nonneg; lia).
  change (2 ^ 25) with 33554432 in *. change (2 ^ 31) with 2147483648. nia.
Qed.

(** Or-ing a group in above the bits already read adds it. *)
Lemma lor_above (r d n : Z) :
  0 <= n -> 0 <= r < 2 ^ n -> Z.lor r (d * 2 ^ n) = r + d * 2 ^ n.
Proof.
  intros Hn Hr.
  assert (H0 : Z.land r (d * 2 ^ n) = 0).
  { apply Z.bits_inj'. intros i Hi. rewrite Z.land_spec, Z.bits_0.
    destruct (Z.lt_ge_cases i n) as [Hlt | Hge].
    - by rewrite Z.mul_pow2_bits_low, andb_false_r.
    - destruct (Z.eq_dec r 0) as [-> | Hne]; [by rewrite Z.bits_0|].
      rewrite (Z.bits_above_log2 r i); [done | lia |].
      apply Z.log2_lt_pow2; [lia|].
      assert (2 ^ n <= 2 ^ i) by (apply Z.pow_le_mono_r; lia). lia. }
  by rewrite <- Z.lxor_lor, <- Z.add_nocarry_lxor.
Qed.

Lemma readValue_digits (cs : list Z) (c : Z) (rest : list Z) (k result : Z) :
  Forall (fun c => continues c = true) cs -> continues c = false ->
  0 <= k -> k + Z.of_nat (length cs) <= 5 -> 0 <= result < 2 ^ (5 * k) ->
  readValue (cs ++ c :: rest) (5 * k) result
  = (result + 2 ^ (5 * k) * fromDigits (digit <$> cs ++ [c]), rest).
Proof.
  intros Hcs Hc. revert k result.
  induction Hcs as [|c' cs Hc' _ IH]; intros k result Hk Hlen Hres.
  - simpl. unfold continues in Hc. rewrite Hc.
    fold (digit c). rewrite shl32_digit by (apply digit_range || lia).
    rewrite lor_above by lia. f_equal. lia.
  - simpl in Hlen. cbn [app readValue]. unfold continues in Hc'. rewrite Hc'.
    fold (digit c'). pose proof (digit_range c') as Hd.
    rewrite shl32_digit by lia. rewrite lor_above by lia.
    replace (5 * k + 5) with (5 * (k + 1)) by lia.
    assert (Hp : 2 ^ (5 * (k + 1)) = 32 * 2 ^ (5 * k)).
    { replace (5 * (k + 1)) with (5 + 5 * k) by lia.
      rewrite Z.pow_add_r by lia. done. }
    rewrite IH by (try lia; rewrite Hp; nia).
    f_equal. rewrite Hp. cbn [fmap list_fmap app fromDigits foldr].
    unfold fromDigits. lia.
Qed.


Lemma readValue_length (codes : list Z) (shift result : Z) :
  (length (readValue codes shift result).2 <= length codes)%nat
  /\ (codes ≠ [] -> (length (readValue codes shift result).2 < length codes)%nat).
Proof.
  revert shift result. induction codes as [|c rest IH]; intros shift result.
  - split; [done | by intros []].
  - cbn [readValue]. destruct (32 <=? c - 63).
    + destruct (IH (shift + 5) (Z.lor result (shl32 (Z.land (c - 63) 31) shift)))
        as [Hle _].
      split; [|intros _]; simpl; lia.
    + split; [|intros _]; simpl; lia.
Qed.

(** One iteration of the outer loop. *)
Lemma decodeLoop_S (fuel : nat) (lat lng : Z) (codes : list Z) :
  codes ≠ [] ->
  decodeLoop (S fuel) lat lng codes
  = (lng + delta (readValue (readValue codes 0 0).2 0 0).1,
     lat + delta (readValue codes 0 0).1)
    :: decodeLoop fuel (lat + delta (readValue codes 0 0).1)
         (lng + delta (readValue (readValue codes 0 0).2 0 0).1)
         (readValue (readValue codes 0 0).2 0 0).2.
Proof.
  intros Hne. destruct codes as [|c rest]; [done|].
  cbn [decodeLoop].
  destruct (readValue (c :: rest) 0 0) as [r1 c1].
  cbn [fst snd]. by destruct (readValue c1 0 0) as [r2 c2].
Qed.

(** The loop never runs out of fuel: any fuel of at least the number of
    code units gives the same result. *)
Lemma decodeLoop_fuel (fuel fuel' : nat) (lat lng : Z) (codes : list Z) :
  (length codes <= fuel)%nat -> (length codes <= fuel')%nat ->
  decodeLoop fuel lat lng codes = decodeLoop fuel' lat lng codes.
Proof.
  revert fuel' lat lng codes.
  induction fuel as [|fuel IH]; intros fuel' lat lng codes H H'.
  - destruct codes; [|simpl in H; lia]. by destruct fuel'.
  - destruct codes as [|c rest]; [by destruct fuel'|].
    destruct fuel' as [|fuel']; [simpl in H'; lia|].
    rewrite !decodeLoop_S by done. f_equal.
    pose proof (readValue_length (c :: rest) 0 0) as [_ H1].
    pose proof (readValue_length (readValue (c :: rest) 0 0).2 0 0) as [H2 _].
    specialize (H1 ltac:(done)). cbn [length] in H, H', H1.
    apply IH; lia.
Qed.

Lemma decodeFrom_unroll (lat lng : Z) (codes : list Z) :
  codes ≠ [] ->
  decodeFrom lat lng codes
  = (lng + delta (readValue (readValue codes 0 0).2 0 0).1,
     lat + delta (readValue codes 0 0).1)
    :: decodeFrom (lat + delta (readValue codes 0 0).1)
         (lng + delta (readValue (readValue codes 0 0).2 0 0).1)
         (readValue (readValue codes 0 0).2 0 0).2.
Proof.
  intros Hne. unfold decodeFrom.
  destruct codes as [|c rest] eqn:E; [done|]. rewrite <- E in *.
  replace (length codes) with (S (length rest)) by (by rewrite E).
  rewrite decodeLoop_S by done. f_equal.
  pose proof (readValue_length codes 0 0) as [_ H1].
  pose proof (readValue_length (readValue codes 0 0).2 0 0) as [H2 _].
  specialize (H1 Hne). rewrite E in H1 at 2. cbn [length] in H1.
  apply decodeLoop_fuel; lia.
Qed.

Lemma readValue_complete (v rest : list Z) (shift result : Z) :
  complete v ->
  readValue (v ++ rest) shift result = ((readValue v shift result).1, rest).
Proof.
  intros (cs & c & -> & Hcs & Hc). revert shift result.
  induction Hcs as [|c' cs Hc' _ IH]; intros shift result.
  - simpl. unfold continues in Hc. by rewrite Hc.
  - cbn [app readValue]. unfold continues in Hc'. rewrite Hc'. apply IH.
Qed.

Lemma complete_nonempty (v rest : list Z) : complete v -> v ++ rest ≠ [].
Proof. intros (cs & c & -> & _). by destruct cs. Qed.


(** X12.  One value of an encoded polyline is read as a base-32 number,
    least significant group first: each code unit contributes the low
    five bits of its code minus 63, and the value ends at the first code
    unit below 95.  (Up to six groups fit the 32-bit arithmetic.) *)
Theorem read_value_base32 (cs : list Z) (c : Z) (rest : list Z) :
  Forall (fun c => continues c = true) cs -> continues c = false ->
  (length cs <= 5)%nat ->
  readValue (cs ++ c :: rest) 0 0 = (fromDigits (digit <$> cs ++ [c]), rest).
Proof.
  intros Hcs Hc Hlen.
  pose proof (readValue_digits cs c rest 0 0 Hcs Hc) as H.
  change (5 * 0) with 0 in H. change (2 ^ 0) with 1 in H.
  rewrite H by lia. f_equal. lia.
Qed.

Lemma read_value_base32_witness :
  Forall (fun c => continues c = true) (codeUnits "_p~i")
  /\ continues 70 = false
  /\ readValue (codeUnits "_p~i" ++ 70 :: codeUnits "~ps|U") 0 0
     = (fromDigits (digit <$> codeUnits "_p~i" ++ [70]), codeUnits "~ps|U").
Proof.
  assert (H : Forall (fun c => continues c = true) (codeUnits "_p~i"))
    by (repeat constructor).
  split; [exact H|]. split; [reflexivity|].
  apply (read_value_base32 (codeUnits "_p~i") 70 (codeUnits "~ps|U") H eq_refl).
  simpl. lia.
Defined.

Lemma delta_even_odd (r : Z) :
  delta r = if Z.even r then r / 2 else - (r / 2) - 1.
Proof.
  unfold delta. change 1 with (Z.ones 1) at 1.
  rewrite Z.land_ones by lia. rewrite !Z.shiftr_div_pow2 by lia.
  change (2 ^ 1) with 2. rewrite Zeven_mod.
  destruct (Z.eqb_spec (r mod 2) 0); simpl; [done|].
  unfold Z.lnot. lia.
Qed.

(** X13.  The delta of a value undoes the zig-zag coding of signed
    numbers: an even value [2 d] stands for [d >= 0], an odd value
    [-2 d - 1] for [d < 0], and every integer is the delta of exactly
    such a value. *)
Theorem delta_zigzag :
  (forall r, 0 <= r ->
     (0 <= delta r /\ r = 2 * delta r) \/ (delta r < 0 /\ r = - 2 * delta r - 1))
  /\ (forall d, delta (if 0 <=? d then 2 * d else - 2 * d - 1) = d).
Proof.
  split.
  - intros r Hr. rewrite delta_even_odd, Zeven_mod.
    destruct (Z.eqb_spec (r mod 2) 0); [left | right];
      Z.div_mod_to_equations; lia.
  - intros d. rewrite delta_even_odd, Zeven_mod.
    destruct (Z.leb_spec 0 d);
      match goal with |- context [Z.eqb ?x 0] => destruct (Z.eqb_spec x 0) end;
      Z.div_mod_to_equations; lia.
Qed.

(** X14.  The decoder yields no point for the empty string and at least
    one point for any other; every point takes at least two code units
    but for a last one cut short, so [n] code units give at most
    [(n + 1) / 2] points. *)
Theorem decode_point_count (lat lng : Z) (codes : list Z) :
  (codes = [] <-> decodeFrom lat lng codes = [])
  /\ (2 * length (decodeFrom lat lng codes) <= length codes + 1)%nat.
Proof.
  split.
  - split; [by intros ->|].
    intros H. destruct codes as [|c rest]; [done|].
    by rewrite decodeFrom_unroll in H.
  - remember (length codes) as n eqn:Hn.
    revert lat lng codes Hn.
    induction n as [n IH] using lt_wf_ind; intros lat lng codes ->.
    destruct (decide (codes = [])) as [-> | Hne]; [simpl; lia|].
    rewrite decodeFrom_unroll by done. cbn [length].
    pose proof (readValue_length codes 0 0) as [_ H1]. specialize (H1 Hne).
    set (c1 := (readValue codes 0 0).2) in *.
    destruct (decide (c1 = [])) as [E1 | Hne1].
    + rewrite E1. cbn [readValue snd]. unfold decodeFrom at 1. simpl. lia.
    + pose proof (readValue_length c1 0 0) as [_ H2]. specialize (H2 Hne1).
      set (c2 := (readValue c1 0 0).2) in *.
      specialize (IH (length c2) ltac:(lia)
                    (lat + delta (readValue codes 0 0).1)
                    (lng + delta (readValue c1 0 0).1) c2 eq_refl).
      lia.
Qed.

(** X15.  Each point is the one before plus the two decoded deltas, and
    decoding composes: after code units holding whole points, the rest
    is decoded from the last of these points on. *)
Theorem decode_whole_points :
  (forall v1 v2 rest lat lng,
      complete v1 -> complete v2 ->
      decodeFrom lat lng (v1 ++ v2 ++ rest)
      = (lng + delta (readValue v2 0 0).1, lat + delta (readValue v1 0 0).1)
        :: decodeFrom (lat + delta (readValue v1 0 0).1)
             (lng + delta (readValue v2 0 0).1) rest)
  /\ (forall p rest lat lng,
        wholePoints p ->
        decodeFrom lat lng (p ++ rest)
        = decodeFrom lat lng p
          ++ decodeFrom (default (lng, lat) (last (decodeFrom lat lng p))).2
               (default (lng, lat) (last (decodeFrom lat lng p))).1 rest).
Proof.
  assert (Hstep : forall v1 v2 rest lat lng,
      complete v1 -> complete v2 ->
      decodeFrom lat lng (v1 ++ v2 ++ rest)
      = (lng + delta (readValue v2 0 0).1, lat + delta (readValue v1 0 0).1)
        :: decodeFrom (lat + delta (readValue v1 0 0).1)
             (lng + delta (readValue v2 0 0).1) rest).
  { intros v1 v2 rest lat lng H1 H2.
    rewrite decodeFrom_unroll by by apply complete_nonempty.
    rewrite (readValue_complete v1 (v2 ++ rest) 0 0 H1). cbn [fst snd].
    by rewrite (readValue_complete v2 rest 0 0 H2). }
  split; [exact Hstep|].
  intros p rest lat lng Hp. revert lat lng.
  induction Hp as [|v1 v2 p H1 H2 _ IH]; intros lat lng; [done|].
  rewrite <- !app_assoc. rewrite Hstep by done.
  rewrite <- (app_nil_r p) at 2 3 4. rewrite Hstep by done.
  rewrite (app_nil_r p). rewrite IH. cbn [app]. f_equal. f_equal.
  destruct (decodeFrom (lat + delta (readValue v1 0 0).1)
              (lng + delta (readValue v2 0 0).1) p) as [|q l] eqn:E; [done|].
  rewrite last_cons_cons.
  destruct (last (q :: l)) as [x|] eqn:El; [done|]. by apply last_None in El.
Qed.

Lemma complete_codeUnits (cs : list Z) (c : Z) :
  Forall (fun c => continues c = true) cs -> continues c = false ->
  complete (cs ++ [c]).
Proof. intros H1 H2. by exists cs, c. Qed.

Lemma decode_whole_points_witness :
  let p := codeUnits "_p~iF~ps|U" in
  let rest := codeUnits "_ulLnnqC" in
  wholePoints p
  /\ decodeFrom 0 0 (p ++ rest)
     = decodeFrom 0 0 p ++ decodeFrom 3850000 (-12020000) rest.
Proof.
  cbv zeta.
  assert (Hp : wholePoints (codeUnits "_p~iF~ps|U")).
  { apply (wholePoints_cons (codeUnits "_p~i" ++ [70]) (codeUnits "~ps|" ++ [85]) []).
    - apply complete_codeUnits; [repeat constructor | reflexivity].
    - apply complete_codeUnits; [repeat constructor | reflexivity].
    - constructor. }
  split; [exact Hp|].
  destruct decode_whole_points as [_ H].
  exact (H (codeUnits "_p~iF~ps|U") (codeUnits "_ulLnnqC") 0 0 Hp).
Defined.

(** X16.  A string that ends after a latitude value, or in the middle of
    one, still yields a point: the missing longitude delta counts as 0,
    so the point keeps the longitude of the point before. *)
Theorem decode_cut_short (lat lng : Z) (codes : list Z) :
  codes ≠ [] -> (readValue codes 0 0).2 = [] ->
  decodeFrom lat lng codes = [(lng, lat + delta (readValue codes 0 0).1)].
Proof.
  intros Hne Hend. rewrite decodeFrom_unroll by done.
  rewrite Hend. cbn [readValue fst snd]. unfold decodeFrom at 1. simpl.
  by rewrite Z.add_0_r.
Qed.

Lemma decode_cut_short_witness :
  codeUnits "_p~iF" ≠ []
  /\ (readValue (codeUnits "_p~iF") 0 0).2 = []
  /\ decodeFrom 4070000 (-12095000) (codeUnits "_p~iF")
     = [(-12095000, 4070000 + delta (readValue (codeUnits "_p~iF") 0 0).1)].
Proof.
  assert (Hne : codeUnits "_p~iF" ≠ []) by done.
  split; [exact Hne|]. split; [reflexivity|].
  exact (decode_cut_short 4070000 (-12095000) (codeUnits "_p~iF") Hne eq_refl).
Defined.

(** The example of the format's documentation, decoded by the code. *)
Example decodePolyline_documented :
  decodePolyline "_p~iF~ps|U_ulLnnqC_mqNvxq`@"
  = [ ((-120.2)%float, 38.5%float);
      ((-120.95)%float, 40.700000000000003%float);
      ((-126.453)%float, 43.252000000000002%float) ].
Proof. vm_compute. reflexivity. Qed.

End PolylineFacts.

(** ** Step instructions *)

Section StepFacts.
Import Steps.

Lemma closes_false_tagFree (s : string) : closes s = false -> tagFree s = true.
Proof.
  induction s as [|c rest IH]; [done|].
  cbn [closes tagFree]. intros [_ H]%orb_false_iff.
  by rewrite H, andb_false_r, IH.
Qed.

Lemma closeTag_None (s : string) : closeTag s = None <-> closes s = false.
Proof.
  induction s as [|c rest IH]; [done|].
  cbn [closeTag closes]. destruct (Ascii.eqb c ">"); [done|]. by simpl.
Qed.

Lemma stripTags_closeTag_tagFree (s : string) :
  tagFree (stripTags s) = true
  /\ (forall t, closeTag s = Some t -> tagFree t = true).
Proof.
  induction s as [|c rest [IH1 IH2]]; [done|]. split.
  - cbn [stripTags]. destruct (Ascii.eqb c "<") eqn:Ec.
    + destruct (closeTag rest) as [t|] eqn:Et; [by apply IH2|].
      apply closeTag_None in Et. cbn [tagFree].
      by rewrite Et, andb_false_r, closes_false_tagFree.
    + cbn [tagFree]. by rewrite Ec, IH1.
  - intros t. cbn [closeTag]. destruct (Ascii.eqb c ">").
    + by intros [= <-].
    + apply IH2.
Qed.

Lemma stripTags_fixed (s : string) : tagFree s = true -> stripTags s = s.
Proof.
  induction s as [|c rest IH]; [done|].
  cbn [tagFree stripTags]. intros [Hc Hr]%andb_true_iff.
  destruct (Ascii.eqb c "<"); simpl in Hc.
  - apply negb_true_iff, closeTag_None in Hc. by rewrite Hc.
  - by rewrite IH.
Qed.

Lemma stripTags_closeTag_length (s : string) :
  (String.length (stripTags s) <= String.length s)%nat
  /\ (forall t, closeTag s = Some t -> (String.length t < String.length s)%nat).
Proof.
  induction s as [|c rest [IH1 IH2]]; [done|]. split.
  - cbn [stripTags]. destruct (Ascii.eqb c "<").
    + destruct (closeTag rest) as [t|] eqn:Et; [|done].
      specialize (IH2 t eq_refl). simpl. lia.
    + simpl. lia.
  - intros t. cbn [closeTag]. destruct (Ascii.eqb c ">").
    + intros [= <-]. simpl. lia.
    + intros H. specialize (IH2 t H). simpl. lia.
Qed.

(** X17.  Stripping the HTML tags of an instruction leaves no tag (no [<]
    with a [>] behind it), changes nothing in a text without tags, so
    stripping twice is stripping once, and never makes the text longer. *)
Theorem stripTags_removes_tags (s : string) :
  tagFree (stripTags s) = true
  /\ (tagFree s = true -> stripTags s = s)
  /\ stripTags (stripTags s) = stripTags s
  /\ (String.length (stripTags s) <= String.length s)%nat.
Proof.
  pose proof (stripTags_closeTag_tagFree s) as [H _].
  split; [done|]. split; [apply stripTags_fixed|].
  split; [by apply stripTags_fixed | apply stripTags_closeTag_length].
Qed.


(** The [||] chain of the fallback texts yields their first usable one. *)
Lemma or_chain_firstText (a b c d e : option string) :
  Js.or Js.truthy_str
    (Js.or Js.truthy_str
       (Js.or Js.truthy_str
          (Js.or Js.truthy_str
             (Js.or Js.truthy_str a b) c) d) e) None
  = firstText [a; b; c; d; e].
Proof.
  unfold Js.or, firstText.
  destruct a as [[|? ?]|], b as [[|? ?]|], c as [[|? ?]|], d as [[|? ?]|],
           e as [[|? ?]|]; reflexivity.
Qed.

(** X18.  A step shows the API's [instructions] as they are, tags and
    all, when there are any; otherwise the first usable fallback text,
    with its tags stripped, so that no tag is left in it. *)
Theorem step_instruction_text (functionSource : string -> string) (step : Step) :
  (forall i, step_instructions step = Some i -> i ≠ "" ->
             getStepInstruction functionSource step = Return (Str i))
  /\ (forall t, blank (step_instructions step) ->
                firstText (fallbackTexts step) = Some t ->
                getStepInstruction functionSource step = Return (Str (stripTags t))
                /\ tagFree (stripTags t) = true).
Proof.
  split.
  - intros i Hi Hne. unfold getStepInstruction. rewrite Hi.
    by destruct i.
  - intros t Hb Ht. unfold getStepInstruction, blank in *. rewrite Hb.
    rewrite or_chain_firstText. fold (fallbackTexts step). rewrite Ht.
    split; [done|]. apply stripTags_closeTag_tagFree.
Qed.

Lemma lookup_maneuverMap_nonempty (modifier : option string) (type v : string) :
  tableLookup (maneuverMap modifier) type = Some v -> v ≠ "".
Proof.
  unfold maneuverMap. cbn [tableLookup].
  repeat (destruct (String.eqb _ type); [intros [= <-]; try done|]); [|done].
  by destruct (Js.or Js.truthy_str modifier None).
Qed.

Lemma append_nonempty (a b : string) : a ≠ "" -> a +:+ b ≠ "".
Proof. by destruct a. Qed.

(** No key of [Object.prototype] is a key of the maneuver table, is
    ["turn"], or is empty. *)
Lemma prototypeKeys_apart (modifier : option string) (key : string) :
  key ∈ prototypeKeys ->
  tableLookup (maneuverMap modifier) key = None
  /\ String.eqb key "turn" = false
  /\ Js.truthy_str key = true.
Proof.
  unfold prototypeKeys. intros H.
  repeat (apply elem_of_cons in H as [-> | H]; [done|]).
  by apply elem_of_nil in H.
Qed.

Lemma lookup_inherited (table : list (string * string)) (key : string) :
  key ∈ prototypeKeys -> tableLookup table key = None ->
  forall fallback, lookupOr table key fallback = Inherited key.
Proof.
  intros Hk Hl fallback. unfold lookupOr, lookup.
  by rewrite Hl, bool_decide_eq_true_2.
Qed.

Lemma lookup_fallback (table : list (string * string)) (key : string) :
  key ∉ prototypeKeys -> tableLookup table key = None ->
  forall fallback, lookupOr table key fallback = Str fallback.
Proof.
  intros Hk Hl fallback. unfold lookupOr, lookup.
  by rewrite Hl, bool_decide_eq_false_2.
Qed.

(** X19.  A step without any text falls back on its maneuver.  When that
    is an object, the step reads "Continue [object Object]" whatever the
    maneuver's type and modifier are.  When it is a non-empty string, the
    step reads the text the maneuver table has for it; for a key of
    [Object.prototype] (such as "constructor") the result is no text at
    all but the inherited value; for any other string it reads
    "Continue " and that string.  Without a maneuver, or with the empty
    string for one, it reads "Continue on route". *)
Theorem step_instruction_maneuver (functionSource : string -> string) (step : Step) :
  blank (step_instructions step) -> firstText (fallbackTexts step) = None ->
  let result := getStepInstruction functionSource step in
  match step_maneuver step with
  | Some (ManeuverObject _ _) => result = Return (Str "Continue [object Object]")
  | Some (ManeuverText text) =>
      (text = "" -> result = Return (Str "Continue on route"))
      /\ (forall known, tableLookup (maneuverMap None) text = Some known ->
                        result = Return (Str known))
      /\ (text ∈ prototypeKeys -> result = Return (Inherited text))
      /\ (text ≠ "" -> text ∉ prototypeKeys ->
          tableLookup (maneuverMap None) text = None ->
          result = Return (Str ("Continue " +:+ text)))
  | None => result = Return (Str "Continue on route")
  end.
Proof.
  intros Hb Ht. cbv zeta. unfold getStepInstruction, blank in *.
  rewrite Hb, or_chain_firstText. fold (fallbackTexts step). rewrite Ht.
  destruct (step_maneuver step) as [[text | i m]|]; [| |done].
  - cbn [maneuver_truthy maneuver_key maneuver_modifier].
    unfold formatManeuverInstruction. cbn [Js.or Js.truthy_opt].
    split; [by intros ->|]. split; [|split].
    + intros known Hl.
      pose proof (lookup_maneuverMap_nonempty None text known Hl) as Hne.
      assert (Htext : Js.truthy_str text = true) by (by destruct text).
      rewrite Htext. unfold lookupOr, lookup. rewrite Hl.
      by destruct known.
    + intros Hk. destruct (prototypeKeys_apart None text Hk) as (Hl & _ & ->).
      by rewrite lookup_inherited.
    + intros Hne Hk Hl. assert (Htext : Js.truthy_str text = true) by (by destruct text).
      rewrite Htext. by rewrite lookup_fallback.
  - cbn [maneuver_truthy maneuver_key maneuver_modifier].
    unfold formatManeuverInstruction.
    destruct (Js.or Js.truthy_str m None) as [m'|] eqn:Em; reflexivity.
Qed.

Lemma step_instruction_maneuver_witness :
  let functionSource := fun key : string => "function " +:+ key +:+ "() { [native code] }" in
  let step maneuver :=
    {| step_instructions := None; step_instruction := Some "";
       step_html_instructions := None; step_maneuver := Some maneuver;
       step_narrative := None; step_text := None |} in
  blank (step_instructions (step (ManeuverText "toString")))
  /\ firstText (fallbackTexts (step (ManeuverText "toString"))) = None
  /\ getStepInstruction functionSource (step (ManeuverObject None (Some "left")))
     = Return (Str "Continue [object Object]")
  /\ getStepInstruction functionSource (step (ManeuverText "toString"))
     = Return (Inherited "toString")
  /\ getStepInstruction functionSource (step (ManeuverText "merge"))
     = Return (Str "Merge").
Proof.
  cbv zeta. split; [reflexivity|]. split; [reflexivity|].
  set (functionSource := fun key : string => "function " +:+ key +:+ "() { [native code] }").
  set (step := fun maneuver =>
    {| step_instructions := None; step_instruction := Some "";
       step_html_instructions := None; step_maneuver := Some maneuver;
       step_narrative := None; step_text := None |}).
  split; [exact (step_instruction_maneuver functionSource
                   (step (ManeuverObject None (Some "left"))) eq_refl eq_refl)|].
  destruct (step_instruction_maneuver functionSource (step (ManeuverText "toString"))
              eq_refl eq_refl) as (_ & _ & Hinherited & _).
  destruct (step_instruction_maneuver functionSource (step (ManeuverText "merge"))
              eq_refl eq_refl) as (_ & Hknown & _).
  split; [apply Hinherited | by apply Hknown].
  apply (bool_decide_unpack _). by vm_compute.
Defined.

(** Where the type is no key of [Object.prototype], [baseInstruction] is
    a text, and not the empty one. *)
Lemma baseInstruction_text (modifier : option string) (type : string) :
  type ∉ prototypeKeys ->
  exists base, base ≠ ""
    /\ lookupOr (maneuverMap modifier) type ("Continue " +:+ type) = Str base.
Proof.
  intros Hk. unfold lookupOr, lookup.
  destruct (tableLookup (maneuverMap modifier) type) as [v|] eqn:E.
  - pose proof (lookup_maneuverMap_nonempty modifier type v E).
    exists v. by destruct v.
  - rewrite bool_decide_eq_false_2 by done.
    exists ("Continue " +:+ type). split; [by apply append_nonempty | done].
Qed.

Lemma unhelped_fromTables (functionSource : string -> string)
    (type : string) (modifier instruction : option string) :
  unhelped type instruction ->
  formatManeuverInstruction functionSource type modifier instruction
  = formatManeuverInstruction functionSource type modifier None.
Proof.
  unfold formatManeuverInstruction, unhelped, blank.
  intros [-> | ->].
  - reflexivity.
  - unfold Js.or at 1. unfold Js.truthy_opt at 1.
    destruct (Js.truthy_str type); [|reflexivity]. by rewrite String.eqb_refl.
Qed.

(** X20.  [formatManeuverInstruction] never returns the empty text.  An
    instruction given with the call wins when it is not empty and differs
    from the type.  For a type that is no key of [Object.prototype] the
    result is a text: for one that is no key of the maneuver table
    either, "Continue " and the type, with or without a modifier.  For a
    type that is a key of [Object.prototype] (such as "constructor") and
    no helping instruction, the result is the inherited value itself when
    there is no modifier, and a [TypeError] when there is one.  A turn
    whose modifier is such a key reads "Turn " and the text of the
    inherited value. *)
Theorem maneuver_text (functionSource : string -> string)
    (type : string) (modifier instruction : option string) :
  let result := formatManeuverInstruction functionSource type modifier instruction in
  result ≠ Return (Str "")
  /\ (forall i, instruction = Some i -> i ≠ "" -> i ≠ type -> result = Return (Str i))
  /\ (type ∉ prototypeKeys -> exists text, text ≠ "" /\ result = Return (Str text))
  /\ (unhelped type instruction -> type ∉ prototypeKeys ->
      tableLookup (maneuverMap modifier) type = None ->
      result = Return (Str ("Continue " +:+ type)))
  /\ (unhelped type instruction -> type ∈ prototypeKeys ->
      result = match Js.or Js.truthy_str modifier None with
               | Some _ => TypeError
               | None => Return (Inherited type)
               end)
  /\ (forall m, unhelped type instruction -> type = "turn" ->
                modifier = Some m -> m ∈ prototypeKeys ->
                result = Return (Str ("Turn " +:+ toText functionSource (Inherited m)))).
Proof.
  cbv zeta.
  assert (Hwins : forall i, instruction = Some i -> i ≠ "" -> i ≠ type ->
            formatManeuverInstruction functionSource type modifier instruction
            = Return (Str i)).
  { intros i -> Hne Hty. unfold formatManeuverInstruction.
    destruct i as [|a i]; [done|]. cbn [Js.or Js.truthy_opt Js.truthy_str].
    by destruct (String.eqb_spec (String a i) type). }
  assert (Hhelp : unhelped type instruction
                  \/ exists i, instruction = Some i /\ i ≠ "" /\ i ≠ type).
  { unfold unhelped, blank. destruct instruction as [i|]; [|by left; left].
    destruct i as [|a i]; [by left; left|].
    destruct (decide (String a i = type)) as [-> | Hne]; [by left; right|].
    right. by exists (String a i). }
  assert (Htext : type ∉ prototypeKeys -> exists text, text ≠ ""
            /\ formatManeuverInstruction functionSource type modifier instruction
               = Return (Str text)).
  { intros Hk. destruct Hhelp as [Hu | (i & Hi & Hne & Hty)];
      [|exists i; split; [done | by apply Hwins]].
    rewrite (unhelped_fromTables _ _ _ _ Hu).
    destruct (baseInstruction_text modifier type Hk) as (base & Hbase & Eb).
    unfold formatManeuverInstruction.
    change (Js.or Js.truthy_str None None) with (@None string). cbv iota.
    rewrite Eb.
    destruct (Js.or Js.truthy_str modifier None) as [m|]; [|by exists base].
    destruct (String.eqb type "turn").
    { eexists. split; [|reflexivity]. by apply append_nonempty. }
    destruct (includes "Continue" base); [by exists base|].
    eexists. split; [|reflexivity]. by apply append_nonempty. }
  assert (Hproto : unhelped type instruction -> type ∈ prototypeKeys ->
            formatManeuverInstruction functionSource type modifier instruction
            = match Js.or Js.truthy_str modifier None with
              | Some _ => TypeError
              | None => Return (Inherited type)
              end).
  { intros Hu Hk. rewrite (unhelped_fromTables _ _ _ _ Hu).
    destruct (prototypeKeys_apart modifier type Hk) as (Hl & Hturn & _).
    unfold formatManeuverInstruction.
    change (Js.or Js.truthy_str None None) with (@None string). cbv iota.
    rewrite (lookup_inherited _ _ Hk Hl), Hturn.
    by destruct (Js.or Js.truthy_str modifier None). }
  split; [|split; [exact Hwins|split; [exact Htext|split; [|split; [exact Hproto|]]]]].
  - destruct (decide (type ∈ prototypeKeys)) as [Hk | Hk].
    + destruct Hhelp as [Hu | (i & Hi & Hne & Hty)].
      * rewrite (Hproto Hu Hk). by destruct (Js.or Js.truthy_str modifier None).
      * rewrite (Hwins i Hi Hne Hty). by intros [= ->].
    + destruct (Htext Hk) as (text & Hne & ->). by intros [= ->].
  - intros Hu Hk Hl. rewrite (unhelped_fromTables _ _ _ _ Hu).
    unfold formatManeuverInstruction.
    change (Js.or Js.truthy_str None None) with (@None string). cbv iota.
    rewrite (lookup_fallback _ _ Hk Hl).
    destruct (Js.or Js.truthy_str modifier None) as [m|]; [|done].
    destruct (String.eqb_spec type "turn") as [-> | _]; [by cbn in Hl|].
    assert (Hi : includes "Continue" ("Continue " +:+ type) = true) by by vm_compute.
    by rewrite Hi.
  - intros m Hu -> -> Hk. rewrite (unhelped_fromTables _ _ _ _ Hu).
    destruct (prototypeKeys_apart None m Hk) as (_ & _ & Hm).
    unfold formatManeuverInstruction.
    change (Js.or Js.truthy_str None None) with (@None string). cbv iota.
    unfold Js.or at 1. unfold Js.truthy_opt at 1. rewrite Hm.
    rewrite (lookup_inherited modifierMap m Hk); [done|].
    clear -Hk. unfold prototypeKeys in Hk.
    repeat (apply elem_of_cons in Hk as [-> | Hk]; [done|]).
    by apply elem_of_nil in Hk.
Qed.

Lemma maneuver_text_witness :
  let functionSource := fun key : string => "function " +:+ key +:+ "() { [native code] }" in
  unhelped "constructor" None /\ ("constructor" ∈ prototypeKeys)
  /\ formatManeuverInstruction functionSource "constructor" None None
     = Return (Inherited "constructor")
  /\ formatManeuverInstruction functionSource "constructor" (Some "left") None
     = TypeError
  /\ formatManeuverInstruction functionSource "turn" (Some "toString") None
     = Return (Str "Turn function toString() { [native code] }")
  /\ formatManeuverInstruction functionSource "exit" (Some "right") None
     = Return (Str "Continue exit").
Proof.
  cbv zeta.
  set (functionSource := fun key : string => "function " +:+ key +:+ "() { [native code] }").
  assert (Hu : forall type, unhelped type None) by (by left).
  assert (Hc : "constructor" ∈ prototypeKeys) by (apply (bool_decide_unpack _); by vm_compute).
  assert (Ht : "toString" ∈ prototypeKeys) by (apply (bool_decide_unpack _); by vm_compute).
  assert (He : "exit" ∉ prototypeKeys) by (apply (bool_decide_unpack _); by vm_compute).
  split; [apply Hu|]. split; [exact Hc|].
  destruct (maneuver_text functionSource "constructor" None None)
    as (_ & _ & _ & _ & H1 & _).
  destruct (maneuver_text functionSource "constructor" (Some "left") None)
    as (_ & _ & _ & _ & H2 & _).
  destruct (maneuver_text functionSource "turn" (Some "toString") None)
    as (_ & _ & _ & _ & _ & H3).
  destruct (maneuver_text functionSource "exit" (Some "right") None)
    as (_ & _ & _ & H4 & _).
  split; [exact (H1 (Hu _) Hc)|]. split; [exact (H2 (Hu _) Hc)|].
  split; [exact (H3 "toString" (Hu _) eq_refl eq_refl Ht)|].
  exact (H4 (Hu _) He eq_refl).
Defined.

End StepFacts.

(** ** Traffic advisories *)

Section TrafficFacts.
Import Traffic.

(** A level above a positive constant is above zero. *)
Lemma above_positive (c m : float) :
  (exists mc ec, Prim2SF c = S754_finite false mc ec) ->
  (c <? m)%float = true -> (0 <? m)%float = true.
Proof.
  intros (mc & ec & Hc). rewrite !FloatAxioms.ltb_spec, Hc.
  change (Prim2SF 0) with (S754_zero false).
  unfold SFltb, SFcompare.
  destruct (Prim2SF m) as [s | s | | s mm em]; try done; by destruct s.
Qed.

Lemma five_positive : exists mc ec, Prim2SF 5 = S754_finite false mc ec.
Proof. eexists _, _. vm_compute. reflexivity. Qed.

Lemma ten_positive : exists mc ec, Prim2SF 10 = S754_finite false mc ec.
Proof. eexists _, _. vm_compute. reflexivity. Qed.

(** X21.  A route without advisory, or with an empty one, has no traffic
    and low severity; and whatever the advisory holds and however its
    fields convert to numbers, a severity above low is reported only
    together with [hasTraffic]. *)
Theorem severity_needs_traffic (Number : string -> float) :
  parseTrafficInfo Number None = (false, low)
  /\ parseTrafficInfo Number (Some "") = (false, low)
  /\ (forall travelAdvisory,
        (parseTrafficInfo Number travelAdvisory).1 = false ->
        (parseTrafficInfo Number travelAdvisory).2 = low).
Proof.
  split; [done|]. split; [done|].
  intros adv. unfold parseTrafficInfo.
  destruct (Js.or Js.truthy_str adv None) as [a|]; [|done].
  cbn [fst snd]. set (m := maxTrafficLevel Number (split " | " a)).
  intros H0.
  destruct (10 <? m)%float eqn:H10.
  { apply (above_positive 10 m ten_positive) in H10. congruence. }
  destruct (5 <? m)%float eqn:H5; [|done].
  apply (above_positive 5 m five_positive) in H5. congruence.
Qed.

Lemma Math_max_nan_l (b : float) : Math_max PrimFloat.nan b = PrimFloat.nan.
Proof. reflexivity. Qed.

Lemma Math_max_nan_r (a b : float) :
  PrimFloat.is_nan b = true -> Math_max a b = PrimFloat.nan.
Proof. intros H. unfold Math_max. by rewrite H, orb_true_r. Qed.

(** The loop of [maxTrafficLevel] from a given level on. *)
Lemma maxTrafficLevel_nan (Number : string -> float) (segments : list string)
    (level : float) (segment : string) (v : float) :
  let step := fun maxTrafficLevel segment =>
                let values := Number <$> split "," segment in
                if (3 <=? length values)%nat then
                  match values !! 2%nat with
                  | Some trafficLevel => Math_max maxTrafficLevel trafficLevel
                  | None => maxTrafficLevel
                  end
                else maxTrafficLevel in
  (level = PrimFloat.nan
   \/ (segment ∈ segments /\ (Number <$> split "," segment) !! 2%nat = Some v
       /\ PrimFloat.is_nan v = true)) ->
  foldl step level segments = PrimFloat.nan.
Proof.
  intros step. revert level.
  induction segments as [|s segments IH]; intros level.
  - intros [-> | [Hin _]]; [done | by apply elem_of_nil in Hin].
  - intros H. cbn [foldl]. apply IH.
    destruct H as [-> | (Hin & Hv & Hnan)].
    + left. unfold step. destruct (3 <=? _)%nat; [|done].
      destruct ((Number <$> split "," s) !! 2%nat); reflexivity.
    + apply elem_of_cons in Hin as [<- | Hin]; [left | right; done].
      unfold step. rewrite Hv.
      assert (Hlen : (3 <=? length (Number <$> split "," segment))%nat = true).
      { apply Nat.leb_le. apply lookup_lt_Some in Hv. lia. }
      rewrite Hlen. by apply Math_max_nan_r.
Qed.

(** X22.  One segment whose third field does not convert to a number
    hides all traffic: the advisory is then reported as no traffic, low
    severity, whatever levels the other segments carry. *)
Theorem malformed_level_hides_traffic
    (Number : string -> float) (travelAdvisory segment : string) (v : float) :
  travelAdvisory ≠ "" ->
  segment ∈ split " | " travelAdvisory ->
  (Number <$> split "," segment) !! 2%nat = Some v ->
  PrimFloat.is_nan v = true ->
  parseTrafficInfo Number (Some travelAdvisory) = (false, low).
Proof.
  intros Hne Hin Hv Hnan. unfold parseTrafficInfo.
  destruct travelAdvisory as [|c rest]; [done|].
  cbn [Js.or Js.truthy_opt Js.truthy_str].
  unfold maxTrafficLevel.
  rewrite (maxTrafficLevel_nan Number _ 0%float segment v); [done|].
  right. done.
Qed.

Lemma malformed_level_hides_traffic_witness :
  let Number := fun s : string => if String.eqb s "15" then 15%float else PrimFloat.nan in
  "0,1,x | 1,3,15" ≠ ""
  /\ "0,1,x" ∈ split " | " "0,1,x | 1,3,15"
  /\ parseTrafficInfo Number (Some "0,1,x | 1,3,15") = (false, low)
  /\ parseTrafficInfo Number (Some "1,3,15") = (true, high).
Proof.
  cbv zeta.
  assert (Hin : "0,1,x" ∈ split " | " "0,1,x | 1,3,15") by (vm_compute; constructor).
  split; [done|]. split; [exact Hin|]. split; [|by vm_compute].
  exact (malformed_level_hides_traffic _ "0,1,x | 1,3,15" "0,1,x" PrimFloat.nan
           ltac:(done) Hin eq_refl eq_refl).
Defined.

End TrafficFacts.

(** ** Recent searches *)

Lemma updatedRecent_cons (result : SearchResult) (recent : list SearchResult) :
  updatedRecent result recent
  = result :: take 4 (filter (fun r => place_id r ≠ place_id result) recent).
Proof. reflexivity. Qed.

Lemma NoDup_fmap_filter {A B} (f : A -> B) (P : A -> Prop) `{!forall x, Decision (P x)}
    (l : list A) :
  NoDup (f <$> l) -> NoDup (f <$> filter P l).
Proof.
  induction l as [|x l IH]; [done|].
  rewrite fmap_cons, NoDup_cons. intros [Hx Hl].
  rewrite filter_cons. destruct (decide (P x)); [|by apply IH].
  rewrite fmap_cons, NoDup_cons. split; [|by apply IH].
  intros (y & Hy & Hin)%list_elem_of_fmap. apply Hx.
  apply list_elem_of_fmap. exists y. split; [done|].
  by apply list_elem_of_filter in Hin as [_ ?].
Qed.

Lemma NoDup_fmap_take {A B} (f : A -> B) (n : nat) (l : list A) :
  NoDup (f <$> l) -> NoDup (f <$> take n l).
Proof.
  rewrite fmap_take. intros H.
  rewrite <- (take_drop n (f <$> l)) in H. by apply NoDup_app in H as [? _].
Qed.

Lemma filter_all {A} (P : A -> Prop) `{!forall x, Decision (P x)} (l : list A) :
  Forall P l -> filter P l = l.
Proof.
  induction 1 as [|x l Hx _ IH]; [done|].
  by rewrite filter_cons, decide_True, IH.
Qed.

(** X23.  The list of recent searches is a most-recently-used list of at
    most five places: the place just selected comes first and occurs
    only once, the other places follow in their old order, places that
    were listed once stay listed once, and selecting the same place
    again changes nothing. *)
Theorem recent_searches_mru (result : SearchResult) (recent : list SearchResult) :
  head (updatedRecent result recent) = Some result
  /\ (length (updatedRecent result recent) <= 5)%nat
  /\ (length (updatedRecent result recent) <= S (length recent))%nat
  /\ tail (updatedRecent result recent)
     = take 4 (filter (fun r => place_id r ≠ place_id result) recent)
  /\ (forall r, r ∈ tail (updatedRecent result recent) ->
        r ∈ recent /\ place_id r ≠ place_id result)
  /\ (NoDup (place_id <$> recent) ->
      NoDup (place_id <$> updatedRecent result recent))
  /\ updatedRecent result (updatedRecent result recent) = updatedRecent result recent.
Proof.
  rewrite !updatedRecent_cons. cbn [head tail length].
  set (others := filter (fun r => place_id r ≠ place_id result) recent).
  assert (Hin : forall r, r ∈ take 4 others -> r ∈ recent /\ place_id r ≠ place_id result).
  { intros r Hr%elem_of_take. destruct Hr as (i & Hr & _).
    apply list_elem_of_lookup_2 in Hr.
    by apply list_elem_of_filter in Hr as [? ?]. }
  split; [done|]. split; [rewrite length_take; lia|].
  split; [rewrite length_take; pose proof (length_filter (fun r => place_id r ≠ place_id result) recent); fold others in H; lia|].
  split; [done|]. split; [exact Hin|]. split.
  - intros Hnd. rewrite fmap_cons, NoDup_cons. split.
    + intros (r & Hr & Hr')%list_elem_of_fmap.
      destruct (Hin r Hr') as [_ Hne]. by apply Hne.
    + by apply NoDup_fmap_take, NoDup_fmap_filter.
  - f_equal. rewrite filter_cons, decide_False by (intros H; by apply H).
    rewrite (filter_all _ (take 4 others)); [apply take_take|].
    apply Forall_forall. intros r Hr. by destruct (Hin r Hr).
Qed.
